(** * Roffline: the media download pipeline and its live progress channel

    A shallow embedding of
    - the batch orchestrator [downloadPostsMedia] (download-posts-media), and
    - the server-sent-events controller [SSEHandler]
      (server/controllers/admin/server-side-events.ts),
    followed by the properties of the specification that concern them. *)

From Stdlib Require Import ZArith List Ascii String Bool Lia.
From stdpp Require Import base option strings list gmap pretty.

Import ListNotations.
Set Warnings "-register-all".
Local Open Scope string_scope.
Local Open Scope Z_scope.

(** ** JavaScript values *)

Module Js.

(** An [Error] object: [name] is "Error" for [new Error(..)], "TypeError"
    for the errors the runtime raises on a bad property access. *)
Record Error := mkError { name : string; message : string }.

(** JavaScript numbers are modelled as integers (byte counts, rates,
    percentages); fractions, NaN and the infinities are not represented. *)
Inductive JsVal :=
| JsUndefined
| JsNull
| JsBool (b : bool)
| JsNumber (n : Z)
| JsString (s : string)
| JsError (e : Error)
| JsArray (items : list JsVal)
| JsObject (props : list (string * JsVal)).

(** [Error.prototype.toString]. *)
Definition errorToString (e : Error) : string :=
  if String.eqb (message e) "" then name e
  else if String.eqb (name e) "" then message e
  else name e ++ ": " ++ message e.

(** [toString] of a value; in an array's [join] the nullish elements
    are empty. *)
Fixpoint toString (v : JsVal) : string :=
  match v with
  | JsUndefined => "undefined"
  | JsNull => "null"
  | JsBool b => if b then "true" else "false"
  | JsNumber n => pretty n
  | JsString s => s
  | JsError e => errorToString e
  | JsArray items =>
      String.concat ","
        (map (fun x => match x with
                       | JsUndefined | JsNull => ""
                       | _ => toString x
                       end) items)
  | JsObject _ => "[object Object]"
  end.

(** [v?.toString()]. *)
Definition optionalToString (v : JsVal) : JsVal :=
  match v with
  | JsUndefined | JsNull => JsUndefined
  | _ => JsString (toString v)
  end.

(** What a promise settles to. *)
Inductive Outcome (A : Type) :=
| Resolved (a : A)
| Rejected (e : Error).
Arguments Resolved {A} a.
Arguments Rejected {A} e.

(** The [TypeError] of reading a property of [undefined] or [null]. *)
Definition cannotReadProperty (receiver prop : string) : Error :=
  mkError "TypeError"
    ("Cannot read properties of " ++ receiver ++ " (reading '" ++ prop ++ "')").

(** The [TypeError] of calling a property that is not a function. *)
Definition notAFunction (expr : string) : Error :=
  mkError "TypeError" (expr ++ " is not a function").

(** Ramda's [R.compose] of two unary functions. *)
Definition R_compose {A B C} (f : B -> C) (g : A -> B) : A -> C :=
  fun x => f (g x).

(** Ramda's [R.cond]: the transformer of the first pair whose predicate
    holds is applied; when no predicate holds the result is [undefined]. *)
Fixpoint R_cond {A B} (pairs : list ((A -> bool) * (A -> B))) (x : A) : option B :=
  match pairs with
  | [] => None
  | (pred, transformer) :: rest =>
      if pred x then Some (transformer x) else R_cond rest x
  end.

(** ramda-adjunct's [RA.isNotNil]. *)
Definition RA_isNotNil (v : JsVal) : bool :=
  match v with
  | JsUndefined | JsNull => false
  | _ => true
  end.

(** ramda-adjunct's [RA.isError]. *)
Definition RA_isError (v : JsVal) : bool :=
  match v with
  | JsError _ => true
  | _ => false
  end.

(** ramda-adjunct's [RA.isNonEmptyString]. *)
Definition RA_isNonEmptyString (v : JsVal) : bool :=
  match v with
  | JsString s => negb (String.eqb s "")
  | _ => false
  end.

End Js.

Export Js.

(** ** The batch orchestrator (download-posts-media) *)

Module Downloads.

Definition PostId := string.

(** The fields of a [Post] the orchestrator reads. *)
Record Post := mkPost {
  id : PostId;
  url : string;
  mediaDownloadTries : Z;
}.

Record AdminSettings := mkAdminSettings {
  numberMediaDownloadsAtOnce : Z;
  downloadVideos : bool;
}.

(** The argument object [{ post, adminSettings, postMediaFolder }] handed
    to the categorizers and to the executor. *)
Record DownloadArgs := mkDownloadArgs {
  post : Post;
  adminSettings : AdminSettings;
  postMediaFolder : string;
}.

(** Calls made on the collaborators, in the order a task makes them. The
    first group are methods of [adminMediaDownloadsViewerOrganiser] (the
    progress tracker), then the data-access object [db], the filesystem
    ([pCreateFolder]) and the executor. *)
Inductive Effect :=
| InitializeWithNewPosts (posts : list Post)
| SetDownloadCancelled (postId : PostId) (reason : string)
| IncrementPostMediaDownloadTry (postId : PostId)
| SetDownloadStarted (postId : PostId)
| SetDownloadSucceeded (postId : PostId)
| SetDownloadFailed (postId : PostId) (err : Error)
| DbIncrementPostMediaDownloadTry (postId : PostId)
| DbSetMediaDownloadedTrueForPost (postId : PostId)
| PCreateFolder (folder : string)
| DownloadDirectMediaLink (args : DownloadArgs).

(** The imported collaborators whose code lies outside this module, and
    the timing of the environment. The media folder comes from the
    environment; [isDirectMediaLink] is the categorizer. The promise of
    each awaited call resolves ([None]) or rejects with an error
    ([Some e]): the two writes of [db], [pCreateFolder] and the executor
    [downloadDirectMediaLink]. [completionOrder] says, step by step,
    which of the callbacks then pending in the sweep settles next (its
    position among them, cyclically). *)
Record World := mkWorld {
  postsMediaContainerFolder : string;
  isDirectMediaLink : DownloadArgs -> bool;
  downloadDirectMediaLink : DownloadArgs -> option Error;
  db_incrementPostMediaDownloadTry : PostId -> option Error;
  db_setMediaDownloadedTrueForPost : PostId -> option Error;
  pCreateFolder : string -> option Error;
  completionOrder : list nat;
}.

(** An asynchronous task: the calls it makes, then how its promise
    settles. *)
Definition Task (A : Type) : Type := list Effect * Outcome A.

Definition ret {A} (a : A) : Task A := ([], Resolved a).

Definition throw {A} (e : Error) : Task A := ([], Rejected e).

Definition bind {A B} (k : A -> Task B) (m : Task A) : Task B :=
  match m with
  | (log, Resolved a) => let '(log', r) := k a in ((log ++ log')%list, r)
  | (log, Rejected e) => (log, Rejected e)
  end.

#[export] Instance Task_ret : MRet Task := @ret.
#[export] Instance Task_bind : MBind Task := @bind.

Definition perform (e : Effect) : Task unit := ([e], Resolved tt).

(** An awaited call on a collaborator: the call is made, and its promise
    settles as the world says. *)
Definition call (e : Effect) (rejection : option Error) : Task unit :=
  ([e], match rejection with
        | None => Resolved tt
        | Some err => Rejected err
        end).

(** [try { body } catch (err) { handler }]. *)
Definition try_catch {A} (body : Task A) (handler : Error -> Task A) : Task A :=
  match body with
  | (log, Resolved a) => (log, Resolved a)
  | (log, Rejected e) => let '(log', r) := handler e in ((log ++ log')%list, r)
  end.

Definition maxNumberDownloadTriesAllowed : Z := 3.

Definition tooManyDownloadTries (p : Post) : bool :=
  maxNumberDownloadTriesAllowed <=? mediaDownloadTries p.

(** The pieces of a path between its slashes. *)
Fixpoint segments (path : string) : list string :=
  match path with
  | EmptyString => [""]
  | String c rest =>
      if Ascii.eqb c "/"%char then "" :: segments rest
      else match segments rest with
           | seg :: more => String c seg :: more
           | [] => [String c ""]
           end
  end.

(** Node's [normalizeString]: empty pieces and [.] go, [..] takes the
    piece before it away, or stays when there is none and the path is
    relative. [kept] holds the pieces kept so far, last first. *)
Fixpoint normalizeSegments (allowAboveRoot : bool) (segs kept : list string)
  : list string :=
  match segs with
  | [] => rev kept
  | seg :: more =>
      if String.eqb seg "" || String.eqb seg "." then
        normalizeSegments allowAboveRoot more kept
      else if String.eqb seg ".." then
        match kept with
        | last :: before =>
            if String.eqb last ".." then
              normalizeSegments allowAboveRoot more
                (if allowAboveRoot then ".." :: kept else kept)
            else normalizeSegments allowAboveRoot more before
        | [] =>
            normalizeSegments allowAboveRoot more
              (if allowAboveRoot then [".."] else [])
        end
      else normalizeSegments allowAboveRoot more (seg :: kept)
  end.

(** [path.normalize] (POSIX). *)
Definition path_normalize (path : string) : string :=
  if String.eqb path "" then "."
  else
    let segs := segments path in
    let isAbsolute := String.eqb (hd "x" segs) "" in
    let trailingSeparator := String.eqb (List.last segs "x") "" in
    let body := String.concat "/" (normalizeSegments (negb isAbsolute) segs []) in
    if String.eqb body "" then
      if isAbsolute then "/" else if trailingSeparator then "./" else "."
    else
      let body := if trailingSeparator then body ++ "/" else body in
      if isAbsolute then "/" ++ body else body.

(** [path.join] (POSIX) of two arguments: the non-empty ones are put
    together with a slash and the result is normalised. *)
Definition path_join (dir file : string) : string :=
  let joined :=
    if String.eqb dir "" then file
    else if String.eqb file "" then dir
    else dir ++ "/" ++ file in
  if String.eqb joined "" then "." else path_normalize joined.

Definition createMediaFolderForPost (w : World) (postId : PostId) : Task string :=
  let postMediaFolder := path_join (postsMediaContainerFolder w) postId in
  call (PCreateFolder postMediaFolder) (pCreateFolder w postMediaFolder) ;;
  mret postMediaFolder.

(** The executor call: it is recorded, and its promise settles as the
    world says. *)
Definition run_downloadDirectMediaLink (w : World) (args : DownloadArgs) : Task unit :=
  ([DownloadDirectMediaLink args],
   match downloadDirectMediaLink w args with
   | None => Resolved tt
   | Some e => Rejected e
   end).

(** The rules of the [R.cond] as the source has them: every rule but the
    first is commented out, the catch-all [R.T] rule included. *)
Definition downloadIndividualPostMedia_rules (w : World)
  : list ((DownloadArgs -> bool) * (DownloadArgs -> Task unit)) :=
  [ (isDirectMediaLink w, run_downloadDirectMediaLink w) ].

(** [R.compose(R.cond([...]))]: the promise of the matching rule, or
    [undefined] ([None]) when no rule matches. *)
Definition downloadIndividualPostMedia (w : World) (args : DownloadArgs)
  : option (Task unit) :=
  R_cond (downloadIndividualPostMedia_rules w) args.

(** [await v]: a promise is waited for; [undefined] resolves at once. *)
Definition await (v : option (Task unit)) : Task unit :=
  match v with
  | Some t => t
  | None => ret tt
  end.

(** Modelled from the spec: [isNotError] of server/utils is not among the
    sources. By its name and its use on the results of the sweep it is
    true of every value that is not an [Error]. *)
Definition isNotError (v : JsVal) : bool := negb (RA_isError v).

(** [items.filter(R.compose(isNotError, RA.isNotNil))]. The composition
    applies [RA.isNotNil] first and hands its boolean to [isNotError].
    Reading [filter] of [undefined] or [null] raises a [TypeError]; on a
    value that is no array [filter] is not a function. *)
Definition removeFailedDownloads (items : JsVal) : Outcome JsVal :=
  match items with
  | JsArray l =>
      Resolved (JsArray
        (List.filter (R_compose isNotError (fun x => JsBool (RA_isNotNil x))) l))
  | JsUndefined => Rejected (cannotReadProperty "undefined" "filter")
  | JsNull => Rejected (cannotReadProperty "null" "filter")
  | _ => Rejected (notAFunction "items.filter")
  end.

Definition tooManyTriesReason : string :=
  "Download Skipped: Too many download tries (3).".

(** The module calls [logDownloadErrorIfNotOffline] in its catch block
    but neither defines nor imports it: evaluating the name throws. *)
Definition loggerIsNotDefined : Error :=
  mkError "ReferenceError" "logDownloadErrorIfNotOffline is not defined".

(** The callback handed to [forEachAsync]: one post's task. The try
    increment and the folder creation are awaited outside the [try]; the
    catch block records the failure and then throws on the logger's
    name, so the task of a post whose download failed rejects. *)
Definition downloadPost (w : World) (settings : AdminSettings) (p : Post) : Task JsVal :=
  if tooManyDownloadTries p then
    perform (SetDownloadCancelled (id p) tooManyTriesReason) ;;
    mret JsUndefined
  else
    perform (IncrementPostMediaDownloadTry (id p)) ;;
    call (DbIncrementPostMediaDownloadTry (id p))
         (db_incrementPostMediaDownloadTry w (id p)) ;;
    postMediaFolder ← createMediaFolderForPost w (id p) ;
    try_catch
      (perform (SetDownloadStarted (id p)) ;;
       await (downloadIndividualPostMedia w (mkDownloadArgs p settings postMediaFolder)) ;;
       perform (SetDownloadSucceeded (id p)) ;;
       call (DbSetMediaDownloadedTrueForPost (id p))
            (db_setMediaDownloadedTrueForPost w (id p)) ;;
       mret (JsString (id p)))
      (fun downloadError =>
         perform (SetDownloadFailed (id p) downloadError) ;;
         throw loggerIsNotDefined).

(** *** Prray's sweep *)

(** The state of Prray's [loop]: the callbacks not yet called (as the
    tasks they will be), how each pending callback will settle, the
    tasks called so far in order, the [isEnding] flag, the number of
    workers still at work and how the promise of the loop has settled,
    if it has. *)
Record Pool := mkPool {
  waiting : list (Task JsVal);
  inflight : list (Outcome JsVal);
  visited : list (Task JsVal);
  isEnding : bool;
  workingNum : nat;
  settled : option (Outcome JsVal);
}.

(** A worker calls the callback on the next element. *)
Definition startNext (pool : Pool) : Pool :=
  match waiting pool with
  | [] => pool
  | t :: rest =>
      mkPool rest (inflight pool ++ [snd t])%list (visited pool ++ [t])%list
             (isEnding pool) (workingNum pool) (settled pool)
  end.

(** [resolve(..)] or [reject(..)]: a promise settles once. *)
Definition settle (o : Outcome JsVal) (pool : Pool) : Pool :=
  match settled pool with
  | Some _ => pool
  | None =>
      mkPool (waiting pool) (inflight pool) (visited pool)
             (isEnding pool) (workingNum pool) (Some o)
  end.

(** The [i]-th element of a list and the others. *)
Fixpoint takeAt {A} (i : nat) (l : list A) {struct l} : option (A * list A) :=
  match l with
  | [] => None
  | x :: rest =>
      match i with
      | O => Some (x, rest)
      | S i' =>
          match takeAt i' rest with
          | Some (y, rest') => Some (y, x :: rest')
          | None => None
          end
      end
  end.

(** One pending callback settles and its worker goes on. After a
    rejection the loop is ending and rejects; after a resolution the
    worker calls the callback on the next element, or, the loop ending or
    the elements used up, stops, the last worker to stop resolving the
    loop. *)
Definition settleNext (k : nat) (pool : Pool) : Pool :=
  match takeAt (k mod length (inflight pool)) (inflight pool) with
  | None => pool
  | Some (Rejected e, rest) =>
      settle (Rejected e)
        (mkPool (waiting pool) rest (visited pool) true (workingNum pool) (settled pool))
  | Some (Resolved _, rest) =>
      match isEnding pool, waiting pool with
      | false, _ :: _ =>
          startNext (mkPool (waiting pool) rest (visited pool)
                            (isEnding pool) (workingNum pool) (settled pool))
      | _, _ =>
          let stopped :=
            mkPool (waiting pool) rest (visited pool)
                   (isEnding pool) (pred (workingNum pool)) (settled pool) in
          if Nat.eqb (workingNum stopped) 0
          then settle (Resolved JsUndefined) stopped
          else stopped
      end
  end.

Fixpoint runPool (fuel : nat) (order : list nat) (pool : Pool) : Pool :=
  match fuel with
  | O => pool
  | S fuel' =>
      match inflight pool with
      | [] => pool
      | _ :: _ =>
          runPool fuel' (tl order) (settleNext (hd O order) pool)
      end
  end.

(** The loop starts [min(concurrency, length)] workers, each calling the
    callback on the next element at once; over no elements it resolves
    at once. *)
Definition startPool (tasks : list (Task JsVal)) (concurrency : Z) : Pool :=
  let workers := Z.to_nat (Z.min concurrency (Z.of_nat (length tasks))) in
  Nat.iter workers startNext
    (mkPool tasks [] [] false workers
       (match tasks with
        | [] => Some (Resolved JsUndefined)
        | _ :: _ => None
        end)).

(** The pool at the end of a sweep: every settlement takes a task out of
    those waiting or pending, so as many settlements as there are tasks
    bring the pool to rest. *)
Definition endOfSweep (tasks : list (Task JsVal)) (concurrency : Z) (order : list nat)
  : Pool :=
  runPool (length tasks) order (startPool tasks concurrency).

(** Prray's [forEachAsync]: the callback is called on the elements in
    order, at most [concurrency] calls pending at a time. Once a callback
    has rejected, the promise rejects with its error and no further
    element is visited, the pending callbacks running on to their end.
    Like [Array.prototype.forEach] the method hands nothing back: when
    all callbacks have resolved its promise resolves with [undefined],
    whatever values they returned. The result is the calls of the visited
    elements' tasks, in order, and how the promise settled ([None]: never,
    which needs a concurrency below one). *)
Definition Prray_forEachAsync {A} (func : A -> Task JsVal) (concurrency : Z)
    (order : list nat) (prray : list A)
  : list (list Effect) * option (Outcome JsVal) :=
  let tasks := map func prray in
  let final := endOfSweep tasks concurrency order in
  (map fst (visited final), settled final).

(** [promise.then(onFulfilled)]. *)
Definition then_ {A B} (p : Outcome A) (onFulfilled : A -> Outcome B) : Outcome B :=
  match p with
  | Resolved a => onFulfilled a
  | Rejected e => Rejected e
  end.

(** What one run of the orchestrator did: the tracker initialisation, the
    calls of each visited post's task (one list per visited post, in batch
    order; in real time the tasks interleave, each keeping its own order),
    and how the returned promise settled, if it did. *)
Record Run := mkRun {
  initialisation : Effect;
  perPost : list (list Effect);
  result : option (Outcome JsVal);
}.

(** [postsMediaToBeDownloaded] is a [Map] from post identifiers to posts;
    [values] lists it in insertion order. *)
Definition values {K V} (m : list (K * V)) : list V := map snd m.

Definition downloadPostsMedia (w : World) (settings : AdminSettings)
    (postsMediaToBeDownloaded : list (PostId * Post)) : Run :=
  let postsArr := values postsMediaToBeDownloaded in
  let '(logs, swept) :=
    Prray_forEachAsync (downloadPost w settings)
      (numberMediaDownloadsAtOnce settings) (completionOrder w) postsArr in
  mkRun (InitializeWithNewPosts postsArr) logs
        (option_map (fun o => then_ o removeFailedDownloads) swept).

(** The values the callbacks return, one per post whose task resolves, in
    batch order: what an array of the results would hold. *)
Definition callbackValues (w : World) (settings : AdminSettings)
    (postsArr : list Post) : list JsVal :=
  flat_map (fun p => match snd (downloadPost w settings p) with
                     | Resolved v => [v]
                     | Rejected _ => []
                     end) postsArr.

(** *** Notions used to state what a task and a sweep do *)

(** The tracker calls that end a post's attempt. *)
Definition isTerminal (e : Effect) : bool :=
  match e with
  | SetDownloadCancelled _ _ | SetDownloadSucceeded _ | SetDownloadFailed _ _ => true
  | _ => false
  end.

(** The two places a try is charged: the tracker and the database. *)
Definition isTrackerTryIncrement (i : PostId) (e : Effect) : bool :=
  match e with
  | IncrementPostMediaDownloadTry j => String.eqb i j
  | _ => false
  end.

Definition isDbTryIncrement (i : PostId) (e : Effect) : bool :=
  match e with
  | DbIncrementPostMediaDownloadTry j => String.eqb i j
  | _ => false
  end.

Definition isExecutorCall (e : Effect) : bool :=
  match e with
  | DownloadDirectMediaLink _ => true
  | _ => false
  end.

(** A call is about the post [p]: it names [p]'s identifier, [p]'s media
    folder or [p] itself. *)
Definition about (w : World) (p : Post) (e : Effect) : Prop :=
  match e with
  | InitializeWithNewPosts _ => False
  | SetDownloadCancelled i _
  | IncrementPostMediaDownloadTry i
  | SetDownloadStarted i
  | SetDownloadSucceeded i
  | SetDownloadFailed i _
  | DbIncrementPostMediaDownloadTry i
  | DbSetMediaDownloadedTrueForPost i => i = id p
  | PCreateFolder folder => folder = path_join (postsMediaContainerFolder w) (id p)
  | DownloadDirectMediaLink args => post args = p
  end.

(** The task of [p] rejects. *)
Definition rejects (w : World) (settings : AdminSettings) (p : Post) : Prop :=
  exists e, snd (downloadPost w settings p) = Rejected e.

(** What holds of the pool all along a sweep over [tasks]. *)
Definition PoolInv (tasks : list (Task JsVal)) (pool : Pool) : Prop :=
  (visited pool ++ waiting pool)%list = tasks
  /\ (forall o, In o (inflight pool) -> exists t, In t (visited pool) /\ snd t = o)
  /\ (forall e, settled pool = Some (Rejected e) ->
        exists t, In t (visited pool) /\ snd t = Rejected e)
  /\ (isEnding pool = true -> exists e, settled pool = Some (Rejected e))
  /\ (isEnding pool = false ->
        workingNum pool = length (inflight pool)
        /\ (waiting pool <> [] -> inflight pool <> [])
        /\ settled pool
           = (if Nat.eqb (workingNum pool) 0 then Some (Resolved JsUndefined) else None)
        /\ (forall t e, In t (visited pool) -> snd t = Rejected e ->
              In (Rejected e) (inflight pool))).

End Downloads.

(** ** The live progress channel (server-side-events.ts) *)

Module SSE.

(** A plain object: its own enumerable properties in insertion order. *)
Definition Obj := list (string * JsVal).

(** [Map<string, PostWithMediaDownloadInfo>], entries in insertion order. *)
Definition DownloadsMap := list (string * Obj).

(** [obj[key]]. *)
Fixpoint getProp (key : string) (o : Obj) : JsVal :=
  match o with
  | [] => JsUndefined
  | (k, v) :: rest => if String.eqb k key then v else getProp key rest
  end.

(** [key in obj]. *)
Fixpoint hasProp (key : string) (o : Obj) : bool :=
  match o with
  | [] => false
  | (k, _) :: rest => String.eqb k key || hasProp key rest
  end.

(** [{ ...obj, key: v }]: an existing property keeps its place. *)
Fixpoint setProp (key : string) (v : JsVal) (o : Obj) : Obj :=
  match o with
  | [] => [(key, v)]
  | (k, x) :: rest =>
      if String.eqb k key then (k, v) :: rest else (k, x) :: setProp key v rest
  end.

(** Ramda's [R.pick]: the named properties the object has, in the order
    of the names. *)
Definition R_pick (names : list string) (o : Obj) : Obj :=
  flat_map (fun k => if hasProp k o then [(k, getProp k o)] else []) names.

(** Ramda's [R.pickBy]: the properties whose value satisfies the test. *)
Definition R_pickBy (test : JsVal -> bool) (o : Obj) : Obj :=
  List.filter (fun kv => test (snd kv)) o.

(** The test of [removePropsWithNoData]: the ts-pattern [match] on the
    type of the value. *)
Definition hasData (val : JsVal) : bool :=
  match val with
  | JsString _ => RA_isNonEmptyString val
  | JsNumber n => 0 <? n
  | JsBool b => negb (Bool.eqb b false)
  | JsUndefined | JsNull => false
  | _ => true
  end.

Definition removePropsWithNoData : Obj -> Obj := R_pickBy hasData.

(** The test [RA.isError(download)] is made on the record itself. *)
Definition stringifyAnyErrors (download : Obj) : Obj :=
  setProp "downloadError"
    (if RA_isError (JsObject download)
     then optionalToString (getProp "downloadError" download)
     else getProp "downloadError" download)
    download.

Definition trimmedDownloadProps : list string :=
  [ "id"; "url"; "downloadFailed"; "downloadError"; "downloadCancelled";
    "downloadCancellationReason"; "downloadSkipped"; "downloadSkippedReason";
    "downloadStarted"; "downloadSucceeded"; "downloadProgress";
    "downloadSpeed"; "downloadedBytes"; "downloadFileSize" ].

Definition convertDownloadsMapForFrontend (downloads : DownloadsMap) : list Obj :=
  map removePropsWithNoData
    (map stringifyAnyErrors
       (map (R_pick trimmedDownloadProps) (Downloads.values downloads))).

(** The tree [JSON.stringify] writes out. *)
Inductive Json :=
| JNull
| JBool (b : bool)
| JNumber (n : Z)
| JString (s : string)
| JArray (items : list Json)
| JObject (members : list (string * Json)).

(** [JSON.stringify]: [undefined] has no rendering ([None]); it becomes
    [null] inside an array and its property is left out of an object. An
    [Error] has no enumerable property of its own and is written as the
    empty object. *)
Fixpoint JSON_stringify (v : JsVal) : option Json :=
  match v with
  | JsUndefined => None
  | JsNull => Some JNull
  | JsBool b => Some (JBool b)
  | JsNumber n => Some (JNumber n)
  | JsString s => Some (JString s)
  | JsError _ => Some (JObject [])
  | JsArray items =>
      Some (JArray (map (fun x => default JNull (JSON_stringify x)) items))
  | JsObject props =>
      Some (JObject
        ((fix members (ps : list (string * JsVal)) : list (string * Json) :=
            match ps with
            | [] => []
            | (k, x) :: rest =>
                match JSON_stringify x with
                | Some j => (k, j) :: members rest
                | None => members rest
                end
            end) props))
  end.

(** A frame on the wire, [event: <event>\ndata: <JSON>\n\n], kept as its
    two variable parts. *)
Record Frame := mkFrame {
  event : string;
  data : option Json;
}.

Definition createSSEEvent (ev : string) (d : JsVal) : Frame :=
  mkFrame ev (JSON_stringify d).

(** *** The closures of one [SSEHandler] call *)

Definition ConnId := nat.

Inductive Handler :=
| newDownloadBatchStarted
| downloadsCleared
| aDownloadStarted
| aDownloadFailed
| aDownloadSucceeded
| aDownloadCancelled
| aDownloadSkipped
| progressOfADownload
| downloadTryIncrementForDownload.

(** A listener is a closure: the handler and the connection whose
    [reply] it captured. Two calls of [SSEHandler] make distinct closures. *)
Record Listener := mkListener {
  conn : ConnId;
  handler : Handler;
}.

#[export] Instance Handler_eq_dec : EqDecision Handler.
Proof. solve_decision. Defined.

#[export] Instance Listener_eq_dec : EqDecision Listener.
Proof. solve_decision. Defined.

(** What the tracker emits: the event and the arguments it passes. *)
Inductive Notification :=
| NewDownloadBatchStarted (downloads : DownloadsMap)
| DownloadsCleared
| DownloadStarted (postId : string)
| DownloadFailed (postId : string) (err : option Error)
| DownloadSucceeded (postId : string)
| DownloadCancelled (postId reason : string)
| DownloadSkipped (postId reason : string)
| DownloadProgress (postId : string)
    (downloadFileSize downloadedBytes downloadSpeed downloadProgress : Z)
| DownloadMediaTryIncrement (postId : string).

Definition eventName (n : Notification) : string :=
  match n with
  | NewDownloadBatchStarted _ => "new-download-batch-started"
  | DownloadsCleared => "downloads-cleared"
  | DownloadStarted _ => "download-started"
  | DownloadFailed _ _ => "download-failed"
  | DownloadSucceeded _ => "download-succeeded"
  | DownloadCancelled _ _ => "download-cancelled"
  | DownloadSkipped _ _ => "download-skipped"
  | DownloadProgress _ _ _ _ _ => "download-progress"
  | DownloadMediaTryIncrement _ => "download-media-try-increment"
  end.

Definition objects (l : list Obj) : JsVal := JsArray (map JsObject l).

(** The frame a closure writes when it is called with the arguments of a
    notification; [None] where the arguments are not those the closure is
    declared with. *)
Definition invoke (h : Handler) (n : Notification) : option Frame :=
  match h, n with
  | newDownloadBatchStarted, NewDownloadBatchStarted downloads =>
      Some (createSSEEvent "new-download-batch-started"
              (objects (convertDownloadsMapForFrontend downloads)))
  | downloadsCleared, DownloadsCleared =>
      Some (createSSEEvent "downloads-cleared" JsNull)
  | aDownloadStarted, DownloadStarted postId =>
      Some (createSSEEvent "download-started"
              (JsObject [("postId", JsString postId)]))
  | aDownloadFailed, DownloadFailed postId err =>
      let error := match err with
                   | Some e => errorToString e
                   | None => ""
                   end in
      Some (createSSEEvent "download-failed"
              (JsObject [("postId", JsString postId); ("err", JsString error)]))
  | aDownloadSucceeded, DownloadSucceeded postId =>
      Some (createSSEEvent "download-succeeded"
              (JsObject [("postId", JsString postId)]))
  | aDownloadCancelled, DownloadCancelled postId reason =>
      Some (createSSEEvent "download-cancelled"
              (JsObject [("postId", JsString postId); ("reason", JsString reason)]))
  | aDownloadSkipped, DownloadSkipped postId reason =>
      Some (createSSEEvent "download-skipped"
              (JsObject [("postId", JsString postId); ("reason", JsString reason)]))
  | progressOfADownload,
    DownloadProgress postId downloadFileSize downloadedBytes downloadSpeed downloadProgress =>
      Some (createSSEEvent "download-skipped"
              (JsObject [("postId", JsString postId);
                         ("downloadFileSize", JsNumber downloadFileSize);
                         ("downloadedBytes", JsNumber downloadedBytes);
                         ("downloadSpeed", JsNumber downloadSpeed);
                         ("downloadProgress", JsNumber downloadProgress)]))
  | downloadTryIncrementForDownload, DownloadMediaTryIncrement postId =>
      Some (createSSEEvent "download-media-try-increment"
              (JsObject [("postId", JsString postId)]))
  | _, _ => None
  end.

(** *** The emitter *)

(** [adminMediaDownloadsViewerOrganiserEmitter]: for each event name the
    listeners in registration order. *)
Definition listeners (em : gmap string (list Listener)) (ev : string) : list Listener :=
  default [] (em !! ev).

(** [emitter.on(ev, l)]. *)
Definition on (ev : string) (l : Listener) (em : gmap string (list Listener))
  : gmap string (list Listener) :=
  <[ev := (listeners em ev ++ [l])%list]> em.

(** The list without the last occurrence of [l]. *)
Fixpoint removeFirst (l : Listener) (ls : list Listener) : list Listener :=
  match ls with
  | [] => []
  | x :: rest => if decide (x = l) then rest else x :: removeFirst l rest
  end.

Definition removeLast (l : Listener) (ls : list Listener) : list Listener :=
  reverse (removeFirst l (reverse ls)).

(** [emitter.removeListener(ev, l)]: the most recently added instance of
    [l] goes; an event left without listeners loses its entry. *)
Definition removeListener (ev : string) (l : Listener) (em : gmap string (list Listener))
  : gmap string (list Listener) :=
  match em !! ev with
  | None => em
  | Some ls =>
      match removeLast l ls with
      | [] => delete ev em
      | ls' => <[ev := ls']> em
      end
  end.

(** *** The server state and [SSEHandler] *)

(** [reply.raw]: the headers set and the frames written, oldest first. *)
Record Reply := mkReply {
  headers : list (string * string);
  frames : list Frame;
}.

Record State := mkState {
  posts : DownloadsMap;
  emitter : gmap string (list Listener);
  replies : gmap ConnId Reply;
}.

Definition initialState : State := mkState [] ∅ ∅.

Definition setHeader (c : ConnId) (k v : string) (st : State) : State :=
  mkState (posts st) (emitter st)
    (<[c := mkReply (headers (default (mkReply [] []) (replies st !! c)) ++ [(k, v)])%list
                    (frames (default (mkReply [] []) (replies st !! c)))]> (replies st)).

(** [reply.raw.write(frame)]. *)
Definition write (c : ConnId) (f : Frame) (st : State) : State :=
  mkState (posts st) (emitter st)
    (<[c := mkReply (headers (default (mkReply [] []) (replies st !! c)))
                    (frames (default (mkReply [] []) (replies st !! c)) ++ [f])%list]>
       (replies st)).

Definition withEmitter (f : gmap string (list Listener) -> gmap string (list Listener))
    (st : State) : State :=
  mkState (posts st) (f (emitter st)) (replies st).

(** The nine [emitter.on] calls, in source order. *)
Definition registrations : list (string * Handler) :=
  [ ("new-download-batch-started", newDownloadBatchStarted);
    ("downloads-cleared", downloadsCleared);
    ("download-started", aDownloadStarted);
    ("download-failed", aDownloadFailed);
    ("download-succeeded", aDownloadSucceeded);
    ("download-cancelled", aDownloadCancelled);
    ("download-skipped", aDownloadSkipped);
    ("download-progress", progressOfADownload);
    ("download-media-try-increment", downloadTryIncrementForDownload) ].

(** The nine [emitter.removeListener] calls of the close handler, in
    source order. *)
Definition removals : list (string * Handler) :=
  [ ("new-download-batch-started", newDownloadBatchStarted);
    ("downloads-cleared", downloadsCleared);
    ("download-started", aDownloadStarted);
    ("download-failed", aDownloadFailed);
    ("download-succeeded", aDownloadSucceeded);
    ("download-cancelled", aDownloadCancelled);
    ("download-skipped", aDownloadSkipped);
    ("download-progress", progressOfADownload);
    ("download-media-try-increment", downloadTryIncrementForDownload) ].

Definition registerAll (c : ConnId) (em : gmap string (list Listener))
  : gmap string (list Listener) :=
  fold_left (fun em r => on (fst r) (mkListener c (snd r)) em) registrations em.

Definition removeAll (c : ConnId) (em : gmap string (list Listener))
  : gmap string (list Listener) :=
  fold_left (fun em r => removeListener (fst r) (mkListener c (snd r)) em) removals em.

(** [SSEHandler(request, reply)] for the connection [c]: the headers, the
    [page-load] frame with the tracker's current table, then the
    registrations. It runs to its end without yielding. *)
Definition SSEHandler (c : ConnId) (st : State) : State :=
  let st := setHeader c "Content-Type" "text/event-stream" st in
  let st := setHeader c "Cache-Control" "no-cache" st in
  let st := setHeader c "x-no-compression" "true" st in
  let st := setHeader c "Connection" "keep-alive" st in
  let st := write c (createSSEEvent "page-load"
                       (objects (convertDownloadsMapForFrontend (posts st)))) st in
  withEmitter (registerAll c) st.

(** The handler of the request's [close] event. *)
Definition onClose (c : ConnId) (st : State) : State :=
  withEmitter (removeAll c) st.

(** [emitter.emit(ev, ...args)]: the listeners of the event are called in
    registration order, each writing to the reply it captured. *)
Definition deliver (n : Notification) (st : State) (l : Listener) : State :=
  match invoke (handler l) n with
  | Some f => write (conn l) f st
  | None => st
  end.

Definition emit (n : Notification) (st : State) : State :=
  fold_left (deliver n) (listeners (emitter st) (eventName n)) st.

(** The tracker replaces its table. *)
Definition setPosts (table : DownloadsMap) (st : State) : State :=
  mkState table (emitter st) (replies st).

(** What can happen to the server: a request on a new connection, a
    connection closing, the tracker changing its table or emitting. *)
Inductive step : State -> State -> Prop :=
| step_connect st c :
    replies st !! c = None -> step st (SSEHandler c st)
| step_close st c :
    step st (onClose c st)
| step_tracker st table :
    step st (setPosts table st)
| step_emit st n :
    step st (emit n st).

Inductive reachable : State -> Prop :=
| reachable_initial : reachable initialState
| reachable_step st st' : reachable st -> step st st' -> reachable st'.

(** *** Notions used to state what the channel does *)

(** The closures a connection has under an event name, by a list of
    (event name, handler) pairs. *)
Definition closures (c : ConnId) (rs : list (string * Handler)) (ev : string)
  : list Listener :=
  (λ r, mkListener c r.2) <$> filter (λ r, r.1 = ev) rs.

Definition sseHeaders : list (string * string) :=
  [ ("Content-Type", "text/event-stream"); ("Cache-Control", "no-cache");
    ("x-no-compression", "true"); ("Connection", "keep-alive") ].

Definition pageLoad (table : DownloadsMap) : Frame :=
  createSSEEvent "page-load" (objects (convertDownloadsMapForFrontend table)).

(** What holds of the emitter in every reachable state: under an event
    name no closure is listed twice; a closure is listed under the name it
    was registered with, and the connection it writes to has a reply. *)
Definition Inv (st : State) : Prop :=
  (∀ ev, NoDup (listeners (emitter st) ev))
  ∧ (∀ ev l, l ∈ listeners (emitter st) ev →
       (ev, handler l) ∈ registrations ∧ is_Some (replies st !! conn l)).

(** The reply of a connection begins with a given frame. *)
Definition startsWith (c : ConnId) (first : Frame) (st : State) : Prop :=
  ∃ r rest, replies st !! c = Some r ∧ frames r = first :: rest.

(** What a field of a tracked record shows in the snapshot: a string that
    is not empty, a number above zero and [true] show as themselves, an
    [Error] as the empty object, an array or an object as its JSON; a
    field without data ([undefined], [null], the empty string, a number
    that is not positive, [false]) does not show. *)
Definition shown (v : JsVal) : option Json :=
  match v with
  | JsUndefined | JsNull => None
  | JsBool b => if b then Some (JBool true) else None
  | JsNumber n => if 0 <? n then Some (JNumber n) else None
  | JsString s => if String.eqb s EmptyString then None else Some (JString s)
  | JsError _ => Some (JObject [])
  | JsArray _ | JsObject _ => JSON_stringify v
  end.

(** The frames one [emit] of [n] writes to the connection [c], given the
    listeners of the event: one for each closure of [c] among them. *)
Definition deliveries (n : Notification) (c : ConnId) (ls : list Listener) : list Frame :=
  omap (λ l, invoke (handler l) n) (filter (λ l, conn l = c) ls).

End SSE.

(** ** Sample inputs *)

Module Samples.
Import Downloads.

Definition hasSuffix (suffix s : string) : bool :=
  let n := String.length s in
  let k := String.length suffix in
  String.eqb (String.substring (n - k) k s) suffix.

(** A world in which links to .jpg and .mp4 files are direct media links
    and the transfer of post "b" breaks with a connection reset. *)
Definition connectionReset : Error := mkError "Error" "read ECONNRESET".

(** The sample world at a given completion order: the storage and the
    filesystem work. *)
Definition worldWith (order : list nat) : World :=
  mkWorld "/posts-media"
    (fun args => hasSuffix ".jpg" (url (post args)) || hasSuffix ".mp4" (url (post args)))
    (fun args => if String.eqb (id (post args)) "b" then Some connectionReset else None)
    (fun _ => None)
    (fun _ => None)
    (fun _ => None)
    order.

Definition world : World := worldWith [].



Definition settings : AdminSettings := mkAdminSettings 2 false.

Definition postA : Post := mkPost "a" "https://i.redd.it/a.jpg" 3.
Definition postB : Post := mkPost "b" "https://i.redd.it/b.jpg" 0.
Definition postC : Post := mkPost "c" "https://i.redd.it/c.jpg" 1.
Definition textPost : Post :=
  mkPost "t" "https://www.reddit.com/r/aww/comments/t/a_text_post/" 0.

Definition batch : list (PostId * Post) :=
  [("a", postA); ("b", postB); ("c", postC)].

(** A batch in which no transfer breaks. *)
Definition quietBatch : list (PostId * Post) :=
  [("a", postA); ("c", postC)].


Definition oneAtATime : AdminSettings := mkAdminSettings 1 false.

(** A tracker record of a failed download, as the tracker holds it: the
    error is the [Error] object the executor threw. *)
Definition failedRecord : SSE.Obj :=
  [ ("id", JsString "b");
    ("url", JsString "https://i.redd.it/b.jpg");
    ("mediaDownloadTries", JsNumber 1);
    ("downloadFailed", JsBool true);
    ("downloadError", JsError connectionReset);
    ("downloadCancelled", JsBool false);
    ("downloadCancellationReason", JsString "");
    ("downloadSkipped", JsBool false);
    ("downloadSkippedReason", JsString "");
    ("downloadStarted", JsBool true);
    ("downloadSucceeded", JsBool false);
    ("downloadProgress", JsNumber 0);
    ("downloadSpeed", JsNumber (-1));
    ("downloadedBytes", JsNumber 2048);
    ("downloadFileSize", JsNumber 0) ].

Definition table : SSE.DownloadsMap := [("b", failedRecord)].

(** One subscriber, connection 1, attached while the table is [table]. *)
Definition oneSubscriber : SSE.State :=
  SSE.SSEHandler 1%nat (SSE.setPosts table SSE.initialState).

(** Two subscribers, the second attached after the first. *)
Definition twoSubscribers : SSE.State :=
  SSE.SSEHandler 2%nat oneSubscriber.

End Samples.

(** ** Properties of the batch orchestrator *)

Module DownloadsFacts.
Import Downloads.

Lemma tooManyDownloadTries_spec (p : Post) :
  tooManyDownloadTries p = true <-> 3 <= mediaDownloadTries p.
Proof. unfold tooManyDownloadTries, maxNumberDownloadTriesAllowed. apply Z.leb_le. Qed.

Lemma tooManyDownloadTries_false (p : Post) :
  tooManyDownloadTries p = false <-> mediaDownloadTries p < 3.
Proof. unfold tooManyDownloadTries, maxNumberDownloadTriesAllowed. apply Z.leb_gt. Qed.


(** The classifier has an answer exactly for the direct media links. *)
Lemma downloadIndividualPostMedia_None (w : World) (args : DownloadArgs) :
  downloadIndividualPostMedia w args = None <-> isDirectMediaLink w args = false.
Proof.
  unfold downloadIndividualPostMedia, downloadIndividualPostMedia_rules. simpl.
  destruct (isDirectMediaLink w args); split; congruence.
Qed.

Lemma downloadIndividualPostMedia_Some (w : World) (args : DownloadArgs) :
  isDirectMediaLink w args = true ->
  downloadIndividualPostMedia w args = Some (run_downloadDirectMediaLink w args).
Proof.
  intros H. unfold downloadIndividualPostMedia, downloadIndividualPostMedia_rules.
  simpl. now rewrite H.
Qed.

(** The task of a post, path by path. *)
Lemma downloadPost_paths (w : World) (s : AdminSettings) (p : Post) :
  downloadPost w s p =
  let folder := path_join (postsMediaContainerFolder w) (id p) in
  let args := mkDownloadArgs p s folder in
  let begun :=
    [ IncrementPostMediaDownloadTry (id p);
      DbIncrementPostMediaDownloadTry (id p);
      PCreateFolder folder;
      SetDownloadStarted (id p) ] in
  if tooManyDownloadTries p then
    ([SetDownloadCancelled (id p) tooManyTriesReason], Resolved JsUndefined)
  else
    match db_incrementPostMediaDownloadTry w (id p) with
    | Some e =>
        ([ IncrementPostMediaDownloadTry (id p);
           DbIncrementPostMediaDownloadTry (id p) ], Rejected e)
    | None =>
        match pCreateFolder w folder with
        | Some e =>
            ([ IncrementPostMediaDownloadTry (id p);
               DbIncrementPostMediaDownloadTry (id p);
               PCreateFolder folder ], Rejected e)
        | None =>
            if isDirectMediaLink w args then
              match downloadDirectMediaLink w args with
              | Some e =>
                  ((begun ++ [ DownloadDirectMediaLink args;
                               SetDownloadFailed (id p) e ])%list,
                   Rejected loggerIsNotDefined)
              | None =>
                  match db_setMediaDownloadedTrueForPost w (id p) with
                  | None =>
                      ((begun ++ [ DownloadDirectMediaLink args;
                                   SetDownloadSucceeded (id p);
                                   DbSetMediaDownloadedTrueForPost (id p) ])%list,
                       Resolved (JsString (id p)))
                  | Some e =>
                      ((begun ++ [ DownloadDirectMediaLink args;
                                   SetDownloadSucceeded (id p);
                                   DbSetMediaDownloadedTrueForPost (id p);
                                   SetDownloadFailed (id p) e ])%list,
                       Rejected loggerIsNotDefined)
                  end
              end
            else
              match db_setMediaDownloadedTrueForPost w (id p) with
              | None =>
                  ((begun ++ [ SetDownloadSucceeded (id p);
                               DbSetMediaDownloadedTrueForPost (id p) ])%list,
                   Resolved (JsString (id p)))
              | Some e =>
                  ((begun ++ [ SetDownloadSucceeded (id p);
                               DbSetMediaDownloadedTrueForPost (id p);
                               SetDownloadFailed (id p) e ])%list,
                   Rejected loggerIsNotDefined)
              end
        end
    end.
Proof.
  cbv zeta. unfold downloadPost.
  destruct (tooManyDownloadTries p); [reflexivity|].
  unfold createMediaFolderForPost, downloadIndividualPostMedia,
    downloadIndividualPostMedia_rules.
  cbn -[path_join].
  destruct (db_incrementPostMediaDownloadTry w (id p)); cbn -[path_join]; [reflexivity|].
  destruct (pCreateFolder w _); cbn -[path_join]; [reflexivity|].
  destruct (isDirectMediaLink w _); cbn -[path_join].
  - destruct (downloadDirectMediaLink w _); cbn -[path_join]; [reflexivity|].
    destruct (db_setMediaDownloadedTrueForPost w (id p)); reflexivity.
  - destruct (db_setMediaDownloadedTrueForPost w (id p)); reflexivity.
Qed.

Ltac task_paths w s p :=
  rewrite (downloadPost_paths w s p); cbv zeta;
  destruct (tooManyDownloadTries p) eqn:Htries;
  [ apply tooManyDownloadTries_spec in Htries
  | apply tooManyDownloadTries_false in Htries;
    destruct (db_incrementPostMediaDownloadTry w (id p)) eqn:Hinc;
    [ | destruct (pCreateFolder w (path_join (postsMediaContainerFolder w) (id p)))
          eqn:Hdir;
        [ | destruct (isDirectMediaLink w
                        (mkDownloadArgs p s
                           (path_join (postsMediaContainerFolder w) (id p))))
              eqn:Hlink;
            [ destruct (downloadDirectMediaLink w
                          (mkDownloadArgs p s
                             (path_join (postsMediaContainerFolder w) (id p))))
                eqn:Hexec;
              [ | destruct (db_setMediaDownloadedTrueForPost w (id p)) eqn:Hset ]
            | destruct (db_setMediaDownloadedTrueForPost w (id p)) eqn:Hset ] ] ] ];
  cbn -[path_join Z.lt Z.le].


(** The filter of [removeFailedDownloads] lets every element through: its
    test sees the boolean of [RA.isNotNil], never the element. *)
Lemma removeFailedDownloads_array (l : list JsVal) :
  removeFailedDownloads (JsArray l) = Resolved (JsArray l).
Proof.
  unfold removeFailedDownloads. do 2 f_equal.
  induction l as [|x l IH]; simpl; [reflexivity|]. now rewrite IH.
Qed.

(** *** The sweep *)

Lemma takeAt_Permutation {A} (i : nat) (l : list A) (y : A) (rest : list A) :
  takeAt i l = Some (y, rest) -> Permutation l (y :: rest).
Proof.
  revert i rest. induction l as [|x l IH]; intros i rest H; [discriminate H|].
  destruct i as [|i]; simpl in H.
  - inversion H. reflexivity.
  - destruct (takeAt i l) as [[z r]|] eqn:E; [|discriminate H].
    inversion H; subst. rewrite (IH _ _ E). apply perm_swap.
Qed.

Lemma takeAt_lt {A} (i : nat) (l : list A) :
  (i < length l)%nat -> exists y rest, takeAt i l = Some (y, rest).
Proof.
  revert i. induction l as [|x l IH]; intros i H; simpl in H; [lia|].
  destruct i as [|i]; simpl; [eauto|].
  destruct (IH i) as (y & rest & E); [lia|]. rewrite E. eauto.
Qed.

(** While a callback is pending, one of them settles. *)
Lemma settleNext_takes (k : nat) (pool : Pool) :
  inflight pool <> [] ->
  exists o rest,
    takeAt (k mod length (inflight pool)) (inflight pool) = Some (o, rest)
    /\ Permutation (inflight pool) (o :: rest).
Proof.
  intros Hne.
  destruct (takeAt_lt (k mod length (inflight pool)) (inflight pool)) as (o & rest & E).
  { apply Nat.mod_upper_bound. destruct (inflight pool); [congruence|simpl; lia]. }
  exists o, rest. split; [assumption|]. eapply takeAt_Permutation; eassumption.
Qed.

Lemma settle_fields (o : Outcome JsVal) (pool : Pool) :
  waiting (settle o pool) = waiting pool
  /\ inflight (settle o pool) = inflight pool
  /\ visited (settle o pool) = visited pool
  /\ isEnding (settle o pool) = isEnding pool
  /\ workingNum (settle o pool) = workingNum pool
  /\ settled (settle o pool)
     = match settled pool with Some x => Some x | None => Some o end.
Proof.
  unfold settle. destruct (settled pool) eqn:E; simpl; rewrite ?E;
    repeat split; reflexivity.
Qed.

Lemma settleNext_idle (k : nat) (pool : Pool) :
  inflight pool = [] -> settleNext k pool = pool.
Proof. intros H. unfold settleNext. rewrite H. reflexivity. Qed.

(** The three things a pending callback's settling can do to the pool. *)
Lemma settleNext_cases (k : nat) (pool : Pool) :
  inflight pool <> [] ->
  exists o rest,
    Permutation (inflight pool) (o :: rest)
    /\ ((exists e,
           o = Rejected e
           /\ settleNext k pool
              = settle (Rejected e)
                  (mkPool (waiting pool) rest (visited pool) true
                          (workingNum pool) (settled pool)))
        \/ (exists v t ws,
              o = Resolved v /\ isEnding pool = false /\ waiting pool = t :: ws
              /\ settleNext k pool
                 = mkPool ws (rest ++ [snd t])%list (visited pool ++ [t])%list
                          false (workingNum pool) (settled pool))
        \/ (exists v,
              o = Resolved v /\ (isEnding pool = true \/ waiting pool = [])
              /\ settleNext k pool
                 = (if Nat.eqb (pred (workingNum pool)) 0
                    then settle (Resolved JsUndefined)
                           (mkPool (waiting pool) rest (visited pool) (isEnding pool)
                                   (pred (workingNum pool)) (settled pool))
                    else mkPool (waiting pool) rest (visited pool) (isEnding pool)
                                (pred (workingNum pool)) (settled pool)))).
Proof.
  intros Hne. destruct (settleNext_takes k pool Hne) as (o & rest & Htake & Hperm).
  exists o, rest. split; [assumption|].
  unfold settleNext. rewrite Htake. destruct o as [v|e].
  - destruct (isEnding pool) eqn:Hflag.
    + right. right. exists v. split; [reflexivity|]. split; [now left|].
      destruct (waiting pool); reflexivity.
    + destruct (waiting pool) as [|t ws] eqn:Hw.
      * right. right. exists v. split; [reflexivity|]. split; [now right|].
        reflexivity.
      * right. left. exists v, t, ws. repeat split.
  - left. exists e. split; reflexivity.
Qed.

Lemma settleNext_keeps (tasks : list (Task JsVal)) (k : nat) (pool : Pool) :
  PoolInv tasks pool -> PoolInv tasks (settleNext k pool).
Proof.
  intros HI.
  assert (Hdec : inflight pool = [] \/ inflight pool <> []).
  { destruct (inflight pool); [now left|right; congruence]. }
  destruct Hdec as [Hnil|Hne]; [now rewrite settleNext_idle|].
  destruct HI as (Hsplit & Hin & Hblame & Hend & Hlive).
  destruct (settleNext_cases k pool Hne) as (o & rest & Hperm & Hcases).
  assert (Hrest : forall x, In x rest -> In x (inflight pool)).
  { intros x Hx. eapply Permutation_in; [symmetry; eassumption|]. now right. }
  assert (Ho : In o (inflight pool)).
  { eapply Permutation_in; [symmetry; eassumption|]. now left. }
  assert (Hlen : length (inflight pool) = S (length rest)).
  { now rewrite (Permutation_length Hperm). }
  assert (Hstay : forall e v, o = Resolved v ->
            In (Rejected e) (inflight pool) -> In (Rejected e) rest).
  { intros e v -> Hx. eapply Permutation_in in Hx; [|eassumption].
    destruct Hx as [Hx|Hx]; [discriminate Hx|assumption]. }
  destruct Hcases as [(e & -> & ->)|[(v & t & ws & -> & Hflag & Hw & ->)
                                    |(v & -> & Hstop & ->)]].
  - (* the callback rejected *)
    destruct (settle_fields (Rejected e)
                (mkPool (waiting pool) rest (visited pool) true
                        (workingNum pool) (settled pool)))
      as (Hw & Hf & Hv & Hi & Hn & Hs).
    simpl in Hw, Hf, Hv, Hi, Hn, Hs.
    unfold PoolInv. rewrite Hw, Hf, Hv, Hi, Hs.
    split; [assumption|]. split; [auto|]. split; [|split].
    + intros e' He'. destruct (settled pool) as [x|] eqn:Hx.
      * apply Hblame. congruence.
      * inversion He'; subst. now apply Hin.
    + intros _. destruct (settled pool) as [x|] eqn:Hx; [|eauto].
      destruct (isEnding pool) eqn:Hflag.
      * destruct (Hend eq_refl) as [e' He']. eauto.
      * destruct (Hlive eq_refl) as (Hnum & _ & Hset & _).
        rewrite Hnum, Hlen in Hset. simpl in Hset. discriminate Hset.
    + discriminate.
  - (* the worker calls the callback on the next element *)
    destruct (Hlive Hflag) as (Hnum & Hwork & Hset & Hrej).
    unfold PoolInv. simpl. rewrite Hw in Hsplit.
    split; [now rewrite <- app_assoc|]. split; [|split; [|split; [discriminate|]]].
    + intros o Hin'. apply in_app_or in Hin'. destruct Hin' as [Hin'|[<-|[]]].
      * destruct (Hin o (Hrest o Hin')) as (t' & Ht' & Hs).
        exists t'. split; [apply in_or_app; now left|assumption].
      * exists t. split; [apply in_or_app; right; now left|reflexivity].
    + intros e He. destruct (Hblame e He) as (t' & Ht' & Hs).
      exists t'. split; [apply in_or_app; now left|assumption].
    + intros _. split; [rewrite length_app; simpl; lia|].
      split; [intros _ Hnil; now destruct rest|]. split; [assumption|].
      intros t' e Ht' He. apply in_app_or in Ht'. apply in_or_app.
      destruct Ht' as [Ht'|[<-|[]]].
      * left. eapply Hstay; [reflexivity|]. eapply Hrej; eassumption.
      * right. left. now symmetry.
  - (* the worker stops *)
    assert (Hbase : PoolInv tasks
              (if Nat.eqb (pred (workingNum pool)) 0
               then settle (Resolved JsUndefined)
                      (mkPool (waiting pool) rest (visited pool) (isEnding pool)
                              (pred (workingNum pool)) (settled pool))
               else mkPool (waiting pool) rest (visited pool) (isEnding pool)
                           (pred (workingNum pool)) (settled pool))).
    { destruct (isEnding pool) eqn:Hflag.
      - (* the loop is ending and has rejected *)
        destruct (Hend eq_refl) as [e He].
        assert (Hsame :
                  (if Nat.eqb (pred (workingNum pool)) 0
                   then settle (Resolved JsUndefined)
                          (mkPool (waiting pool) rest (visited pool) true
                                  (pred (workingNum pool)) (settled pool))
                   else mkPool (waiting pool) rest (visited pool) true
                               (pred (workingNum pool)) (settled pool))
                  = mkPool (waiting pool) rest (visited pool) true
                           (pred (workingNum pool)) (settled pool)).
        { destruct (Nat.eqb (pred (workingNum pool)) 0); [|reflexivity].
          unfold settle. simpl. now rewrite He. }
        rewrite Hsame. unfold PoolInv. simpl.
        split; [assumption|]. split; [auto|]. split; [assumption|].
        split; [eauto|discriminate].
      - (* the elements are used up *)
        destruct Hstop as [Hstop|Hw]; [discriminate Hstop|].
        destruct (Hlive eq_refl) as (Hnum & Hwork & Hset & Hrej).
        assert (Hnone : settled pool = None).
        { rewrite Hset, Hnum, Hlen. reflexivity. }
        rewrite Hnum, Hlen. simpl.
        destruct (Nat.eqb (length rest) 0) eqn:Hzero.
        + unfold settle. simpl. rewrite Hnone. unfold PoolInv. simpl.
          split; [assumption|]. split; [auto|].
          split; [intros e He; discriminate He|]. split; [discriminate|].
          intros _. split; [reflexivity|]. split; [congruence|].
          split; [now rewrite Hzero|].
          intros t e Ht He. eapply Hstay; [reflexivity|]. eapply Hrej; eassumption.
        + unfold PoolInv. simpl.
          split; [assumption|]. split; [auto|].
          split; [intros e He; congruence|]. split; [discriminate|].
          intros _. split; [reflexivity|]. split; [congruence|].
          split; [now rewrite Hzero|].
          intros t e Ht He. eapply Hstay; [reflexivity|]. eapply Hrej; eassumption. }
    exact Hbase.
Qed.

Lemma skipn_firstn_step {A} (l : list A) (k : nat) :
  (k < length l)%nat ->
  exists t, skipn k l = t :: skipn (S k) l /\ firstn (S k) l = (firstn k l ++ [t])%list.
Proof.
  revert k. induction l as [|a l IH]; intros k H; simpl in H; [lia|].
  destruct k as [|k].
  - exists a. split; reflexivity.
  - destruct (IH k) as (t & E1 & E2); [lia|]. exists t. split.
    + exact E1.
    + change (a :: firstn (S k) l = a :: (firstn k l ++ [t])%list). now rewrite E2.
Qed.

Lemma iter_startNext (tasks : list (Task JsVal)) (k : nat)
    (flag : bool) (num : nat) (st : option (Outcome JsVal)) :
  (k <= length tasks)%nat ->
  Nat.iter k startNext (mkPool tasks [] [] flag num st)
  = mkPool (skipn k tasks) (map snd (firstn k tasks)) (firstn k tasks) flag num st.
Proof.
  induction k as [|k IH]; intros Hk; [reflexivity|].
  simpl. rewrite IH by lia.
  destruct (skipn_firstn_step tasks k) as (t & E1 & E2); [lia|].
  unfold startNext. cbn [waiting inflight visited isEnding workingNum settled].
  rewrite E1, E2, map_app. reflexivity.
Qed.

Lemma startPool_shape (tasks : list (Task JsVal)) (concurrency : Z) :
  let workers := Z.to_nat (Z.min concurrency (Z.of_nat (length tasks))) in
  startPool tasks concurrency
  = mkPool (skipn workers tasks) (map snd (firstn workers tasks)) (firstn workers tasks)
           false workers
           (match tasks with [] => Some (Resolved JsUndefined) | _ :: _ => None end).
Proof. cbv zeta. unfold startPool. apply iter_startNext. lia. Qed.

Lemma startPool_Inv (tasks : list (Task JsVal)) (concurrency : Z) :
  0 < concurrency -> PoolInv tasks (startPool tasks concurrency).
Proof.
  intros Hpos. rewrite startPool_shape. cbv zeta.
  set (workers := Z.to_nat (Z.min concurrency (Z.of_nat (length tasks)))).
  assert (Hle : (workers <= length tasks)%nat) by (unfold workers; lia).
  assert (Hsome : tasks <> [] -> (0 < workers)%nat).
  { intros Hne. unfold workers. destruct tasks; [congruence|]. simpl length. lia. }
  unfold PoolInv. cbn [waiting inflight visited isEnding workingNum settled].
  split; [apply firstn_skipn|]. split; [|split; [|split; [discriminate|]]].
  - intros o Ho. apply in_map_iff in Ho. destruct Ho as (t & <- & Ht). eauto.
  - intros e He. destruct tasks; discriminate He.
  - intros _. split; [|split; [|split]].
    + rewrite length_map, length_firstn. lia.
    + intros Hw Hnil.
      assert (Hne : tasks <> []).
      { intros ->. now rewrite skipn_nil in Hw. }
      specialize (Hsome Hne).
      destruct tasks as [|t ts]; [congruence|].
      destruct workers; [lia|]. discriminate Hnil.
    + destruct tasks as [|t ts].
      * simpl in Hle. replace workers with 0%nat by lia. reflexivity.
      * specialize (Hsome ltac:(discriminate)).
        destruct workers; [lia|reflexivity].
    + intros t e Ht He. rewrite <- He. now apply in_map.
Qed.

Lemma runPool_Inv (tasks : list (Task JsVal)) (fuel : nat) (order : list nat) (pool : Pool) :
  PoolInv tasks pool -> PoolInv tasks (runPool fuel order pool).
Proof.
  revert order pool. induction fuel as [|fuel IH]; intros order pool HI; [assumption|].
  simpl. destruct (inflight pool) eqn:E; [assumption|].
  apply IH. now apply settleNext_keeps.
Qed.

Lemma settleNext_measure (k : nat) (pool : Pool) :
  inflight pool <> [] ->
  (length (waiting (settleNext k pool)) + length (inflight (settleNext k pool)) + 1
   = length (waiting pool) + length (inflight pool))%nat.
Proof.
  intros Hne. destruct (settleNext_cases k pool Hne) as (o & rest & Hperm & Hcases).
  rewrite (Permutation_length Hperm). simpl.
  destruct Hcases as [(e & -> & ->)|[(v & t & ws & -> & Hflag & Hw & ->)
                                    |(v & -> & Hstop & ->)]].
  - destruct (settle_fields (Rejected e)
                (mkPool (waiting pool) rest (visited pool) true
                        (workingNum pool) (settled pool))) as (Hw & Hf & _).
    rewrite Hw, Hf. simpl. lia.
  - simpl. rewrite Hw, length_app. simpl. lia.
  - destruct (Nat.eqb (pred (workingNum pool)) 0).
    + destruct (settle_fields (Resolved JsUndefined)
                  (mkPool (waiting pool) rest (visited pool) (isEnding pool)
                          (pred (workingNum pool)) (settled pool))) as (Hw & Hf & _).
      rewrite Hw, Hf. simpl. lia.
    + simpl. lia.
Qed.

Lemma runPool_done (fuel : nat) (order : list nat) (pool : Pool) :
  (length (waiting pool) + length (inflight pool) <= fuel)%nat ->
  inflight (runPool fuel order pool) = [].
Proof.
  revert order pool. induction fuel as [|fuel IH]; intros order pool Hm.
  - simpl. destruct (inflight pool); [reflexivity|simpl in Hm; lia].
  - simpl. destruct (inflight pool) as [|o fl] eqn:E; [assumption|].
    apply IH.
    pose proof (settleNext_measure (hd 0%nat order) pool ltac:(congruence)) as Hstep.
    rewrite E in Hstep. simpl in Hstep. simpl in Hm. lia.
Qed.

Lemma endOfSweep_Inv tasks concurrency order :
  0 < concurrency ->
  PoolInv tasks (endOfSweep tasks concurrency order)
  /\ inflight (endOfSweep tasks concurrency order) = [].
Proof.
  intros Hpos. unfold endOfSweep. split.
  - apply runPool_Inv. now apply startPool_Inv.
  - apply runPool_done. rewrite startPool_shape. cbv zeta. simpl.
    rewrite length_skipn, length_map, length_firstn. lia.
Qed.

(** Either every task was called and has resolved, and the loop resolved
    with [undefined]; or the loop rejected with the error of a task that
    was called. *)
Lemma endOfSweep_cases tasks concurrency order :
  0 < concurrency ->
  (visited (endOfSweep tasks concurrency order) = tasks
   /\ settled (endOfSweep tasks concurrency order) = Some (Resolved JsUndefined)
   /\ forall t e, In t tasks -> snd t <> Rejected e)
  \/ (exists e t,
        settled (endOfSweep tasks concurrency order) = Some (Rejected e)
        /\ In t (visited (endOfSweep tasks concurrency order))
        /\ snd t = Rejected e).
Proof.
  intros Hpos. destruct (endOfSweep_Inv tasks concurrency order Hpos) as [HI Hidle].
  destruct HI as (Hsplit & Hin & Hblame & Hend & Hlive).
  destruct (isEnding (endOfSweep tasks concurrency order)) eqn:Hflag.
  - right. destruct (Hend eq_refl) as [e He].
    destruct (Hblame e He) as (t & Ht & Hs). eauto.
  - left. destruct (Hlive eq_refl) as (Hnum & Hwork & Hset & Hrej).
    rewrite Hidle in Hnum, Hwork, Hrej. simpl in Hnum.
    assert (Hw : waiting (endOfSweep tasks concurrency order) = []).
    { destruct (waiting (endOfSweep tasks concurrency order)); [reflexivity|].
      exfalso. apply Hwork; [discriminate|reflexivity]. }
    rewrite Hw, app_nil_r in Hsplit. rewrite Hnum in Hset. simpl in Hset.
    split; [assumption|]. split; [assumption|].
    intros t e Ht He. rewrite <- Hsplit in Ht. exact (Hrej t e Ht He).
Qed.

Lemma endOfSweep_prefix tasks concurrency order :
  0 < concurrency ->
  (visited (endOfSweep tasks concurrency order)
   ++ waiting (endOfSweep tasks concurrency order))%list = tasks.
Proof. intros Hpos. now destruct (endOfSweep_Inv tasks concurrency order Hpos) as [[H _] _]. Qed.


(** *** Runs *)

Lemma downloadPostsMedia_unfold (w : World) (s : AdminSettings) (batch : list (PostId * Post)) :
  downloadPostsMedia w s batch
  = mkRun (InitializeWithNewPosts (values batch))
      (map fst (visited (endOfSweep (map (downloadPost w s) (values batch))
                           (numberMediaDownloadsAtOnce s) (completionOrder w))))
      (option_map (fun o => then_ o removeFailedDownloads)
         (settled (endOfSweep (map (downloadPost w s) (values batch))
                     (numberMediaDownloadsAtOnce s) (completionOrder w)))).
Proof.
  unfold downloadPostsMedia, Prray_forEachAsync, endOfSweep.
  now rewrite length_map.
Qed.

(** A run in which no task rejects: every post is visited, and the
    promise rejects on [filter]. *)
Lemma run_quiet (w : World) (s : AdminSettings) (batch : list (PostId * Post)) :
  0 < numberMediaDownloadsAtOnce s ->
  (forall p e, In p (values batch) -> snd (downloadPost w s p) <> Rejected e) ->
  perPost (downloadPostsMedia w s batch)
  = map (fun p => fst (downloadPost w s p)) (values batch)
  /\ result (downloadPostsMedia w s batch)
     = Some (Rejected (cannotReadProperty "undefined" "filter")).
Proof.
  intros Hpos Hquiet. rewrite downloadPostsMedia_unfold. cbn [perPost result].
  destruct (endOfSweep_cases (map (downloadPost w s) (values batch))
              (numberMediaDownloadsAtOnce s) (completionOrder w) Hpos)
    as [(Hall & Hres & _)|(e & t & _ & Ht & He)].
  - rewrite Hall, Hres, map_map. split; reflexivity.
  - exfalso.
    assert (Hin : In t (map (downloadPost w s) (values batch))).
    { rewrite <- (endOfSweep_prefix _ (numberMediaDownloadsAtOnce s)
                    (completionOrder w) Hpos).
      apply in_or_app. now left. }
    apply in_map_iff in Hin. destruct Hin as (p & <- & Hp).
    exact (Hquiet p e Hp He).
Qed.

(** A run in which some task rejects: the promise rejects with the error
    of a task of the batch. *)
Lemma run_noisy (w : World) (s : AdminSettings) (batch : list (PostId * Post)) :
  0 < numberMediaDownloadsAtOnce s ->
  (exists p e, In p (values batch) /\ snd (downloadPost w s p) = Rejected e) ->
  exists p e,
    In p (values batch)
    /\ snd (downloadPost w s p) = Rejected e
    /\ result (downloadPostsMedia w s batch) = Some (Rejected e).
Proof.
  intros Hpos (p0 & e0 & Hp0 & He0). rewrite downloadPostsMedia_unfold. cbn [result].
  destruct (endOfSweep_cases (map (downloadPost w s) (values batch))
              (numberMediaDownloadsAtOnce s) (completionOrder w) Hpos)
    as [(_ & _ & Hnone)|(e & t & Hres & Ht & He)].
  - exfalso. apply (Hnone (downloadPost w s p0) e0); [|assumption].
    now apply in_map.
  - assert (Hin : In t (map (downloadPost w s) (values batch))).
    { rewrite <- (endOfSweep_prefix _ (numberMediaDownloadsAtOnce s)
                    (completionOrder w) Hpos).
      apply in_or_app. now left. }
    apply in_map_iff in Hin. destruct Hin as (p & <- & Hp).
    exists p, e. rewrite Hres. auto.
Qed.

(** The tasks of a run are those of the first posts of the batch. *)
Lemma run_prefix (w : World) (s : AdminSettings) (batch : list (PostId * Post)) :
  0 < numberMediaDownloadsAtOnce s ->
  exists reached rest,
    values batch = (reached ++ rest)%list
    /\ perPost (downloadPostsMedia w s batch)
       = map (fun p => fst (downloadPost w s p)) reached.
Proof.
  intros Hpos. rewrite downloadPostsMedia_unfold. cbn [perPost].
  pose proof (endOfSweep_prefix (map (downloadPost w s) (values batch))
                (numberMediaDownloadsAtOnce s) (completionOrder w) Hpos) as Hsplit.
  symmetry in Hsplit. apply map_eq_app in Hsplit.
  destruct Hsplit as (reached & rest & Hb & Hv & _).
  exists reached, rest. split; [assumption|]. rewrite <- Hv. now rewrite map_map.
Qed.


(** *** The claims *)

(** C1. In the batch of "a" (three tries used) and "c" (its transfer
    succeeds) no task rejects, and the claimed result is the list holding
    "c" alone. Whatever the order in which the callbacks settle, the
    promise of [downloadPostsMedia] instead rejects with a [TypeError]:
    the sweep resolves with [undefined] and [removeFailedDownloads] reads
    [filter] of it. And on the array of the callbacks' values
    [removeFailedDownloads] removes nothing, [undefined] staying next to
    "c". *)
Theorem C1_result_is_not_the_succeeded_identifiers (order : list nat) :
  result (downloadPostsMedia (Samples.worldWith order) Samples.settings Samples.quietBatch)
  = Some (Rejected (mkError "TypeError"
                      "Cannot read properties of undefined (reading 'filter')"))
  /\ callbackValues (Samples.worldWith order) Samples.settings (values Samples.quietBatch)
     = [JsUndefined; JsString "c"]
  /\ removeFailedDownloads (JsArray [JsUndefined; JsString "c"])
     = Resolved (JsArray [JsUndefined; JsString "c"]).
Proof.
  split; [|split].
  - apply run_quiet; [reflexivity|].
    intros p e [<-|[<-|[]]]; vm_compute; discriminate.
  - vm_compute. reflexivity.
  - apply removeFailedDownloads_array.
Qed.

(** C2. For a text post, which is no direct media link,
    [downloadIndividualPostMedia] yields [undefined]: no rule of the
    [R.cond] matches and there is no catch-all rule. The orchestrator then
    records the post as succeeded and as downloaded, the executor never
    having been called. *)
Theorem C2_unmatched_post_has_no_strategy :
  downloadIndividualPostMedia Samples.world
    (mkDownloadArgs Samples.textPost Samples.settings "/posts-media/t") = None
  /\ downloadPost Samples.world Samples.settings Samples.textPost
     = ([ IncrementPostMediaDownloadTry "t";
          DbIncrementPostMediaDownloadTry "t";
          PCreateFolder "/posts-media/t";
          SetDownloadStarted "t";
          SetDownloadSucceeded "t";
          DbSetMediaDownloadedTrueForPost "t" ],
        Resolved (JsString "t")).
Proof. split; vm_compute; reflexivity. Qed.




(** C4. In the batch of "a", "b" and "c" the transfer of "b" breaks. The
    catch block records the failure with [setDownloadFailed] and then
    throws on the name of the logger, which is not defined: the task of
    "b" rejects with a [ReferenceError]. Whatever the order in which the
    callbacks settle, the promise of [downloadPostsMedia] rejects with
    that error, because of the failed post; and swept one download at a
    time the batch does not run to its end, post "c" never being
    visited. *)
Theorem C4_failed_download_rejects_the_batch (order : list nat) :
  In (SetDownloadFailed "b" Samples.connectionReset)
     (fst (downloadPost (Samples.worldWith order) Samples.settings Samples.postB))
  /\ snd (downloadPost (Samples.worldWith order) Samples.settings Samples.postB)
     = Rejected (mkError "ReferenceError" "logDownloadErrorIfNotOffline is not defined")
  /\ result (downloadPostsMedia (Samples.worldWith order) Samples.settings Samples.batch)
     = Some (Rejected (mkError "ReferenceError"
                         "logDownloadErrorIfNotOffline is not defined"))
  /\ perPost (downloadPostsMedia Samples.world Samples.oneAtATime Samples.batch)
     = [ [ SetDownloadCancelled "a" "Download Skipped: Too many download tries (3)." ];
         [ IncrementPostMediaDownloadTry "b";
           DbIncrementPostMediaDownloadTry "b";
           PCreateFolder "/posts-media/b";
           SetDownloadStarted "b";
           DownloadDirectMediaLink
             (mkDownloadArgs Samples.postB Samples.oneAtATime "/posts-media/b");
           SetDownloadFailed "b" Samples.connectionReset ] ].
Proof.
  split; [vm_compute; tauto|]. split; [vm_compute; reflexivity|]. split.
  - destruct (run_noisy (Samples.worldWith order) Samples.settings Samples.batch)
      as (p & e & Hp & He & Hres).
    + reflexivity.
    + exists Samples.postB, loggerIsNotDefined. split; [simpl; tauto|].
      vm_compute. reflexivity.
    + rewrite Hres. destruct Hp as [<-|[<-|[<-|[]]]]; vm_compute in He;
        try discriminate He.
      inversion He. reflexivity.
  - vm_compute. reflexivity.
Qed.

End DownloadsFacts.

(** ** Properties of the live progress channel *)

Module SSEFacts.
Import SSE.

Implicit Types (em : gmap string (list Listener)) (st : State).
Implicit Types (l : Listener) (ls : list Listener) (ev : string) (c : ConnId).

(** *** The emitter *)

Lemma listeners_on ev l em ev' :
  listeners (on ev l em) ev'
  = if decide (ev = ev') then (listeners em ev ++ [l])%list else listeners em ev'.
Proof.
  unfold on. unfold listeners at 1. rewrite lookup_insert.
  case_decide; reflexivity.
Qed.

Lemma filter_all {A} (P : A → Prop) `{!∀ x, Decision (P x)} (xs : list A) :
  (∀ x, x ∈ xs → P x) → filter P xs = xs.
Proof.
  induction xs as [|x xs IH]; intros Hall; [reflexivity|].
  rewrite filter_cons_True by (apply Hall; left).
  f_equal. apply IH. intros y Hy. apply Hall. now right.
Qed.

Lemma filter_ext_elem {A} (P Q : A → Prop)
    `{!∀ x, Decision (P x)} `{!∀ x, Decision (Q x)} (xs : list A) :
  (∀ x, x ∈ xs → (P x ↔ Q x)) → filter P xs = filter Q xs.
Proof.
  induction xs as [|x xs IH]; intros Hall; [reflexivity|].
  assert (Hx : P x ↔ Q x) by (apply Hall; left).
  assert (Hxs : filter P xs = filter Q xs).
  { apply IH. intros y Hy. apply Hall. now right. }
  rewrite !filter_cons, Hxs.
  destruct (decide (P x)), (decide (Q x)); tauto.
Qed.

Lemma removeFirst_NoDup l ls :
  NoDup ls → removeFirst l ls = filter (λ x, x ≠ l) ls.
Proof.
  induction 1 as [|x xs Hx Hnd IH]; [reflexivity|]. simpl.
  destruct (decide (x = l)) as [->|Hne].
  - rewrite filter_cons_False by tauto.
    symmetry. apply filter_all. intros y Hy ->. contradiction.
  - rewrite filter_cons_True by assumption. now rewrite IH.
Qed.

Lemma removeLast_NoDup l ls :
  NoDup ls → removeLast l ls = filter (λ x, x ≠ l) ls.
Proof.
  intros Hnd. unfold removeLast.
  rewrite removeFirst_NoDup by now rewrite reverse_Permutation.
  now rewrite filter_reverse, reverse_involutive.
Qed.

Lemma listeners_removeListener ev l em ev' :
  listeners (removeListener ev l em) ev'
  = if decide (ev = ev') then removeLast l (listeners em ev) else listeners em ev'.
Proof.
  unfold removeListener, listeners.
  destruct (em !! ev) as [ls|] eqn:E.
  - destruct (removeLast l ls) as [|x xs] eqn:R.
    + rewrite lookup_delete. case_decide; [|reflexivity]. simpl. now rewrite R.
    + rewrite lookup_insert. case_decide; [|reflexivity]. simpl. now rewrite R.
  - case_decide as Heq; [|reflexivity]. subst ev'. now rewrite E.
Qed.

Lemma elem_of_closures c rs ev l :
  l ∈ closures c rs ev ↔ conn l = c ∧ (ev, handler l) ∈ rs.
Proof.
  unfold closures. rewrite list_elem_of_fmap. split.
  - intros [[e h] [-> Hin]]. apply list_elem_of_filter in Hin.
    destruct Hin as [He Hin]. simpl in *. subst e. auto.
  - intros [Hc Hin]. exists (ev, handler l). split.
    + destruct l; simpl in *. now subst.
    + apply list_elem_of_filter. auto.
Qed.

Lemma listeners_register c rs em ev :
  listeners (fold_left (λ em r, on r.1 (mkListener c r.2) em) rs em) ev
  = (listeners em ev ++ closures c rs ev)%list.
Proof.
  revert em. induction rs as [|[e h] rs IH]; intros em; simpl.
  - unfold closures. simpl. now rewrite app_nil_r.
  - rewrite IH, listeners_on. unfold closures. rewrite filter_cons. simpl.
    destruct (decide (e = ev)) as [->|Hne]; simpl; [|reflexivity].
    now rewrite <- app_assoc.
Qed.

Lemma listeners_remove c rs em ev :
  NoDup (listeners em ev) →
  listeners (fold_left (λ em r, removeListener r.1 (mkListener c r.2) em) rs em) ev
  = filter (λ l, l ∉ closures c rs ev) (listeners em ev).
Proof.
  revert em. induction rs as [|[e h] rs IH]; intros em Hnd; simpl.
  - symmetry. apply filter_all. intros x _ Hx. unfold closures in Hx. simpl in Hx.
    now apply elem_of_nil in Hx.
  - rewrite IH; rewrite listeners_removeListener.
    + destruct (decide (e = ev)) as [->|Hne].
      * rewrite removeLast_NoDup by assumption.
        rewrite list_filter_filter. apply list_filter_iff. intros x.
        unfold closures. rewrite filter_cons_True by reflexivity.
        rewrite fmap_cons, not_elem_of_cons. simpl. tauto.
      * apply list_filter_iff. intros x.
        unfold closures. now rewrite filter_cons_False by assumption.
    + destruct (decide (e = ev)) as [->|Hne]; [|assumption].
      rewrite removeLast_NoDup by assumption. now apply NoDup_filter.
Qed.

Lemma removals_registrations : removals = registrations.
Proof. reflexivity. Qed.

Lemma listeners_registerAll c em ev :
  listeners (registerAll c em) ev
  = (listeners em ev ++ closures c registrations ev)%list.
Proof. apply listeners_register. Qed.

Lemma listeners_removeAll c em ev :
  NoDup (listeners em ev) →
  listeners (removeAll c em) ev
  = filter (λ l, l ∉ closures c registrations ev) (listeners em ev).
Proof. rewrite <- removals_registrations. apply listeners_remove. Qed.

Lemma NoDup_registered_handlers : NoDup (snd <$> registrations).
Proof. apply NoDup_ListNoDup. repeat constructor; simpl; intuition discriminate. Qed.

(** By name a connection has at most one closure. *)
Lemma NoDup_closures c ev : NoDup (closures c registrations ev).
Proof.
  unfold closures. apply NoDup_fmap_2_strong.
  - intros [e1 h1] [e2 h2] H1 H2 Heq. simpl in Heq.
    apply list_elem_of_filter in H1, H2. simpl in *.
    destruct H1 as [-> _], H2 as [-> _]. now inversion Heq.
  - apply NoDup_filter.
    apply (NoDup_fmap_1 snd). apply NoDup_registered_handlers.
Qed.

(** *** Writing to a reply *)

Lemma replies_write c f st c' :
  replies (write c f st) !! c'
  = if decide (c = c')
    then Some (mkReply (headers (default (mkReply [] []) (replies st !! c)))
                       (frames (default (mkReply [] []) (replies st !! c)) ++ [f])%list)
    else replies st !! c'.
Proof. unfold write. simpl. apply lookup_insert. Qed.

(** On a new connection the handler leaves the four headers and the one
    frame in the reply, and the nine closures with the emitter. *)
Lemma SSEHandler_new c st :
  replies st !! c = None →
  SSEHandler c st
  = mkState (posts st) (registerAll c (emitter st))
      (<[c := mkReply sseHeaders [pageLoad (posts st)]]> (replies st)).
Proof.
  intros Hnew. unfold SSEHandler, withEmitter, write, setHeader. simpl.
  rewrite !lookup_insert_eq. simpl. rewrite Hnew. simpl.
  rewrite !insert_insert_eq. reflexivity.
Qed.

Lemma Inv_initial : Inv initialState.
Proof.
  split.
  - intros ev. unfold listeners. simpl. rewrite lookup_empty. constructor.
  - intros ev l. unfold listeners. simpl. rewrite lookup_empty. simpl.
    intros H. now apply elem_of_nil in H.
Qed.

Lemma Inv_connect st c : Inv st → replies st !! c = None → Inv (SSEHandler c st).
Proof.
  intros [Hnd Hreg] Hnew. rewrite SSEHandler_new by assumption.
  unfold Inv. cbn [emitter replies]. split.
  - intros ev. rewrite listeners_registerAll. apply NoDup_app.
    split; [apply Hnd|]. split; [|apply NoDup_closures].
    intros l Hl Hcl. apply elem_of_closures in Hcl. destruct Hcl as [Hc _].
    apply Hreg in Hl. destruct Hl as [_ [r Hr]]. congruence.
  - intros ev l. rewrite listeners_registerAll, elem_of_app, lookup_insert.
    intros [Hl|Hl].
    + apply Hreg in Hl. destruct Hl as [Hin Hsome]. split; [assumption|].
      case_decide; [eauto|assumption].
    + apply elem_of_closures in Hl. destruct Hl as [Hc Hin].
      split; [assumption|]. rewrite decide_True by congruence. eauto.
Qed.

Lemma Inv_close st c : Inv st → Inv (onClose c st).
Proof.
  intros [Hnd Hreg]. unfold Inv, onClose, withEmitter. cbn [emitter replies]. split.
  - intros ev. rewrite listeners_removeAll by apply Hnd. apply NoDup_filter, Hnd.
  - intros ev l. rewrite listeners_removeAll by apply Hnd.
    rewrite list_elem_of_filter. intros [_ Hl]. now apply Hreg.
Qed.

Lemma deliver_emitter n st l : emitter (deliver n st l) = emitter st.
Proof. unfold deliver. now destruct (invoke (handler l) n). Qed.

Lemma deliver_replies n st l c :
  is_Some (replies st !! c) → is_Some (replies (deliver n st l) !! c).
Proof.
  unfold deliver. destruct (invoke (handler l) n); [|auto].
  rewrite replies_write. case_decide; eauto.
Qed.

Lemma emit_fold n ls st :
  emitter (fold_left (deliver n) ls st) = emitter st
  ∧ ∀ c, is_Some (replies st !! c) → is_Some (replies (fold_left (deliver n) ls st) !! c).
Proof.
  revert st. induction ls as [|l ls IH]; intros st; simpl; [auto|].
  destruct (IH (deliver n st l)) as [He Hr]. split.
  - now rewrite He, deliver_emitter.
  - intros c Hc. now apply Hr, deliver_replies.
Qed.

Lemma Inv_emit st n : Inv st → Inv (emit n st).
Proof.
  intros [Hnd Hreg]. unfold emit.
  destruct (emit_fold n (listeners (emitter st) (eventName n)) st) as [He Hr].
  unfold Inv. rewrite He. split; [assumption|].
  intros ev l Hl. apply Hreg in Hl. destruct Hl as [Hin Hsome]. auto.
Qed.

Lemma Inv_step st st' : Inv st → step st st' → Inv st'.
Proof.
  intros HI Hstep. destruct Hstep.
  - now apply Inv_connect.
  - now apply Inv_close.
  - exact HI.
  - now apply Inv_emit.
Qed.

Lemma Inv_reachable st : reachable st → Inv st.
Proof. induction 1; eauto using Inv_initial, Inv_step. Qed.

(** *** A reply keeps its first frame *)

Lemma startsWith_deliver c first n st l :
  startsWith c first st → startsWith c first (deliver n st l).
Proof.
  intros (r & rest & Hr & Hf). unfold deliver.
  destruct (invoke (handler l) n) as [f|]; [|now exists r, rest].
  unfold startsWith. rewrite replies_write.
  destruct (decide (conn l = c)) as [->|Hne].
  - rewrite Hr. simpl. eexists _, (rest ++ [f])%list. split; [reflexivity|].
    simpl. now rewrite Hf.
  - now exists r, rest.
Qed.

Lemma startsWith_emit c first n st :
  startsWith c first st → startsWith c first (emit n st).
Proof.
  unfold emit. generalize (listeners (emitter st) (eventName n)) as ls.
  intros ls. revert st. induction ls as [|l ls IH]; intros st H; simpl; [assumption|].
  now apply IH, startsWith_deliver.
Qed.

Lemma startsWith_step c first st st' :
  startsWith c first st → step st st' → startsWith c first st'.
Proof.
  intros H Hstep. destruct Hstep as [st c' Hnew| | |].
  - destruct H as (r & rest & Hr & Hf).
    rewrite SSEHandler_new by assumption. exists r, rest. simpl.
    rewrite lookup_insert_ne by congruence. auto.
  - exact H.
  - exact H.
  - now apply startsWith_emit.
Qed.

Lemma startsWith_steps c first st st' :
  startsWith c first st → rtc step st st' → startsWith c first st'.
Proof. intros H Hsteps. induction Hsteps; eauto using startsWith_step. Qed.

(** *** Trimming *)

(** The record's own error is never looked at as an error: the property
    is copied as it is. *)
Lemma stringifyAnyErrors_copies (download : Obj) :
  stringifyAnyErrors download
  = setProp "downloadError" (getProp "downloadError" download) download.
Proof. reflexivity. Qed.

Lemma progressOfADownload_event (n : Notification) (f : Frame) :
  invoke progressOfADownload n = Some f → event f = "download-skipped".
Proof. destruct n; simpl; intros H; inversion H; reflexivity. Qed.

Lemma removePropsWithNoData_In (o : Obj) (key : string) (v : JsVal) :
  In (key, v) (removePropsWithNoData o) ↔ In (key, v) o ∧ hasData v = true.
Proof. unfold removePropsWithNoData, R_pickBy. apply filter_In. Qed.

(** The snapshot has one record for each record of the table. *)
Lemma convertDownloadsMapForFrontend_length (downloads : DownloadsMap) :
  length (convertDownloadsMapForFrontend downloads) = length downloads.
Proof.
  unfold convertDownloadsMapForFrontend, Downloads.values.
  now rewrite !length_map.
Qed.

Lemma setProp_getProp (key : string) (o : Obj) :
  setProp key (getProp key o) o
  = if hasProp key o then o else (o ++ [(key, JsUndefined)])%list.
Proof.
  induction o as [|[k x] o IH]; simpl; [reflexivity|].
  destruct (String.eqb k key) eqn:E; simpl; [reflexivity|].
  rewrite IH. now destruct (hasProp key o).
Qed.

Lemma removePropsWithNoData_stringifyAnyErrors (o : Obj) :
  removePropsWithNoData (stringifyAnyErrors o) = removePropsWithNoData o.
Proof.
  rewrite stringifyAnyErrors_copies, setProp_getProp.
  destruct (hasProp "downloadError" o); [reflexivity|].
  unfold removePropsWithNoData, R_pickBy. rewrite List.filter_app. simpl.
  apply app_nil_r.
Qed.

Lemma R_pick_In (names : list string) (o : Obj) (key : string) (v : JsVal) :
  In (key, v) (R_pick names o)
  ↔ In key names ∧ hasProp key o = true ∧ v = getProp key o.
Proof.
  unfold R_pick. rewrite in_flat_map. split.
  - intros [k [Hk Hin]]. destruct (hasProp k o) eqn:E; simpl in Hin; [|contradiction].
    destruct Hin as [Heq|[]]. inversion Heq; subst. auto.
  - intros (Hk & Hh & ->). exists key. split; [assumption|].
    rewrite Hh. now left.
Qed.

Lemma hasData_stringify (v : JsVal) :
  hasData v = true → ∃ j, JSON_stringify v = Some j.
Proof. destruct v; simpl; intros H; try discriminate H; eexists; reflexivity. Qed.

Lemma getProp_absent (key : string) (o : Obj) :
  hasProp key o = false → getProp key o = JsUndefined.
Proof.
  induction o as [|[k x] o IH]; simpl; [reflexivity|].
  destruct (String.eqb k key); simpl; [discriminate|exact IH].
Qed.

Lemma shown_hasData (v : JsVal) :
  shown v = if hasData v then JSON_stringify v else None.
Proof.
  destruct v as [| |b|n|s|e|items|props]; simpl; try reflexivity.
  - now destruct b.
  - now destruct (String.eqb s EmptyString).
Qed.

Lemma JSON_stringify_object (o : Obj) :
  JSON_stringify (JsObject o)
  = Some (JObject (omap (λ kv, pair kv.1 <$> JSON_stringify kv.2) o)).
Proof.
  simpl. do 2 f_equal.
  induction o as [|[k x] o IH]; simpl; [reflexivity|].
  rewrite IH. now destruct (JSON_stringify x).
Qed.

(** The members written for a record: along the picked names, what each
    field of the tracked record shows. *)
Lemma trimmed_members (names : list string) (o : Obj) :
  omap (λ kv, pair kv.1 <$> JSON_stringify kv.2)
       (removePropsWithNoData (R_pick names o))
  = omap (λ key, pair key <$> shown (getProp key o)) names.
Proof.
  unfold removePropsWithNoData, R_pickBy, R_pick.
  induction names as [|key names IH]; [reflexivity|].
  cbn [flat_map]. rewrite List.filter_app, omap_app, IH. cbn [omap list_omap].
  rewrite shown_hasData.
  destruct (hasProp key o) eqn:Hhas.
  - cbn [List.filter snd]. destruct (hasData (getProp key o)); [|reflexivity].
    simpl. now destruct (JSON_stringify (getProp key o)).
  - rewrite (getProp_absent key o Hhas). reflexivity.
Qed.

(** The [page-load] frame, member by member. *)
Lemma pageLoad_members (table : DownloadsMap) :
  pageLoad table
  = mkFrame "page-load"
      (Some (JArray
         (map JObject
            (map (λ tracked,
                    omap (λ key, pair key <$> shown (getProp key tracked))
                         trimmedDownloadProps)
                 (map snd table))))).
Proof.
  unfold pageLoad, createSSEEvent, objects, convertDownloadsMapForFrontend,
    Downloads.values.
  f_equal. cbn [JSON_stringify]. do 2 f_equal. rewrite !map_map.
  apply map_ext. intros [k tracked]. cbn [snd].
  rewrite JSON_stringify_object, removePropsWithNoData_stringifyAnyErrors,
    trimmed_members.
  reflexivity.
Qed.

Lemma shown_members_sublist (names : list string) (o : Obj) :
  map fst (omap (λ key, pair key <$> shown (getProp key o)) names) `sublist_of` names.
Proof.
  induction names as [|key names IH]; [constructor|].
  cbn [omap list_omap]. destruct (shown (getProp key o)); simpl.
  - now apply sublist_skip.
  - now apply sublist_cons.
Qed.

Lemma shown_members_elem (names : list string) (o : Obj) (key : string) (j : Json) :
  (key, j) ∈ omap (λ key, pair key <$> shown (getProp key o)) names
  ↔ key ∈ names ∧ shown (getProp key o) = Some j.
Proof.
  rewrite list_elem_of_omap. split.
  - intros (k & Hk & Heq). destruct (shown (getProp k o)) eqn:E; [|discriminate].
    simpl in Heq. inversion Heq; subst. now split.
  - intros [Hk Hs]. exists key. split; [assumption|]. now rewrite Hs.
Qed.

(** *** The claims *)

(** C5. One subscriber is attached and the tracker emits
    [download-progress] for post "b". The frame written to the subscriber
    carries the payload postId, downloadFileSize, downloadedBytes,
    downloadSpeed, downloadProgress, but its event name is
    [download-skipped], not [download-progress]. *)
Theorem C5_progress_frame_is_named_download_skipped :
  frames <$> replies (emit (DownloadProgress "b" 4096 2048 512 50) Samples.oneSubscriber) !! 1%nat
  = Some [ pageLoad Samples.table;
           mkFrame "download-skipped"
             (Some (JObject [ ("postId", JString "b");
                              ("downloadFileSize", JNumber 4096);
                              ("downloadedBytes", JNumber 2048);
                              ("downloadSpeed", JNumber 512);
                              ("downloadProgress", JNumber 50) ])) ].
Proof. vm_compute. reflexivity. Qed.

(** C6. The tracker holds the record of a failed download whose
    [downloadError] is the [Error] the executor threw. The record
    forwarded in the [page-load] frame still holds that [Error] object,
    not its description "Error: read ECONNRESET"; on the wire it is the
    empty JSON object. *)
Theorem C6_error_object_is_forwarded_as_it_is :
  convertDownloadsMapForFrontend Samples.table
  = [ [ ("id", JsString "b");
        ("url", JsString "https://i.redd.it/b.jpg");
        ("downloadFailed", JsBool true);
        ("downloadError", JsError Samples.connectionReset);
        ("downloadStarted", JsBool true);
        ("downloadedBytes", JsNumber 2048) ] ]
  ∧ data (pageLoad Samples.table)
    = Some (JArray [ JObject [ ("id", JString "b");
                               ("url", JString "https://i.redd.it/b.jpg");
                               ("downloadFailed", JBool true);
                               ("downloadError", JObject []);
                               ("downloadStarted", JBool true);
                               ("downloadedBytes", JNumber 2048) ] ]).
Proof. split; vm_compute; reflexivity. Qed.

(** C7. When [SSEHandler] runs for a new connection, the reply holds just
    one frame. It is named [page-load] and its data are an array with one
    object for each record of the tracker's table, in the table's order:
    the object of a record has a member for each of the fourteen forwarded
    fields of the record that carries data, with the value the tracker
    holds, in the order of the fourteen names, and no other member. And
    whatever the server does afterwards (other subscribers attaching or
    leaving, the tracker changing its table or emitting), that frame stays
    the first one of the reply: every live update written to the
    subscriber comes after it. *)
Theorem C7_snapshot_precedes_live_updates st c st' :
  replies st !! c = None →
  rtc step (SSEHandler c st) st' →
  let forwarded :=
    [ "id"; "url"; "downloadFailed"; "downloadError"; "downloadCancelled";
      "downloadCancellationReason"; "downloadSkipped"; "downloadSkippedReason";
      "downloadStarted"; "downloadSucceeded"; "downloadProgress";
      "downloadSpeed"; "downloadedBytes"; "downloadFileSize" ] in
  ∃ snapshot : list (list (string * Json)),
    Forall2 (λ tracked members,
               map fst members `sublist_of` forwarded
               ∧ ∀ key j,
                   (key, j) ∈ members
                   ↔ key ∈ forwarded ∧ shown (getProp key tracked) = Some j)
            (map snd (posts st)) snapshot
    ∧ createSSEEvent "page-load" (objects (convertDownloadsMapForFrontend (posts st)))
      = mkFrame "page-load" (Some (JArray (map JObject snapshot)))
    ∧ length (convertDownloadsMapForFrontend (posts st)) = length (posts st)
    ∧ frames <$> replies (SSEHandler c st) !! c
      = Some [mkFrame "page-load" (Some (JArray (map JObject snapshot)))]
    ∧ ∃ r rest,
        replies st' !! c = Some r
        ∧ frames r = mkFrame "page-load" (Some (JArray (map JObject snapshot))) :: rest.
Proof.
  intros Hnew Hsteps forwarded.
  assert (Hfirst : frames <$> replies (SSEHandler c st) !! c = Some [pageLoad (posts st)]).
  { rewrite SSEHandler_new by assumption. cbn [replies].
    now rewrite lookup_insert_eq. }
  exists (map (λ tracked,
                 omap (λ key, pair key <$> shown (getProp key tracked)) forwarded)
              (map snd (posts st))).
  fold (pageLoad (posts st)).
  rewrite <- (pageLoad_members (posts st) : _ = mkFrame _ (Some (JArray (map JObject (map (λ tracked, omap (λ key, pair key <$> shown (getProp key tracked)) forwarded) (map snd (posts st))))))).
  split; [|split; [reflexivity|split; [apply convertDownloadsMapForFrontend_length|]]].
  - induction (map snd (posts st)) as [|tracked records IH]; constructor; [|exact IH].
    split; [apply shown_members_sublist|]. intros key j. apply shown_members_elem.
  - split; [exact Hfirst|].
    apply (startsWith_steps c (pageLoad (posts st)) (SSEHandler c st) st'); [|assumption].
    destruct (replies (SSEHandler c st) !! c) as [r|] eqn:Hr; [|discriminate].
    exists r, []. split; [exact Hr|]. simpl in Hfirst. congruence.
Qed.

Lemma C7_snapshot_precedes_live_updates_witness :
  let forwarded :=
    [ "id"; "url"; "downloadFailed"; "downloadError"; "downloadCancelled";
      "downloadCancellationReason"; "downloadSkipped"; "downloadSkippedReason";
      "downloadStarted"; "downloadSucceeded"; "downloadProgress";
      "downloadSpeed"; "downloadedBytes"; "downloadFileSize" ] in
  ∃ snapshot : list (list (string * Json)),
    Forall2 (λ tracked members,
               map fst members `sublist_of` forwarded
               ∧ ∀ key j,
                   (key, j) ∈ members
                   ↔ key ∈ forwarded ∧ shown (getProp key tracked) = Some j)
            (map snd Samples.table) snapshot
    ∧ createSSEEvent "page-load" (objects (convertDownloadsMapForFrontend Samples.table))
      = mkFrame "page-load" (Some (JArray (map JObject snapshot)))
    ∧ length (convertDownloadsMapForFrontend Samples.table) = length Samples.table
    ∧ frames <$> replies Samples.oneSubscriber !! 1%nat
      = Some [mkFrame "page-load" (Some (JArray (map JObject snapshot)))]
    ∧ ∃ r rest,
        replies (emit (DownloadStarted "b") Samples.oneSubscriber) !! 1%nat = Some r
        ∧ frames r = mkFrame "page-load" (Some (JArray (map JObject snapshot))) :: rest.
Proof.
  apply (C7_snapshot_precedes_live_updates
           (setPosts Samples.table initialState) 1%nat
           (emit (DownloadStarted "b") Samples.oneSubscriber)).
  - reflexivity.
  - apply rtc_once. apply step_emit.
Defined.

(** C8. In every reachable state of the server, after the close handler
    of a connection has run, the emitter lists under each event name the
    listeners it listed before that belong to other connections, in the
    same order, and none of the closing connection: each of its nine
    registrations is gone. *)
Theorem C8_close_removes_the_connections_listeners st c ev :
  reachable st →
  listeners (emitter (onClose c st)) ev
  = filter (λ l, conn l ≠ c) (listeners (emitter st) ev)
  ∧ (∀ h, (ev, h) ∈ registrations →
       mkListener c h ∉ listeners (emitter (onClose c st)) ev).
Proof.
  intros Hreach. apply Inv_reachable in Hreach. destruct Hreach as [Hnd Hreg].
  assert (Heq : listeners (emitter (onClose c st)) ev
                = filter (λ l, conn l ≠ c) (listeners (emitter st) ev)).
  { unfold onClose, withEmitter. cbn [emitter].
    rewrite listeners_removeAll by apply Hnd.
    apply filter_ext_elem. intros l Hl. rewrite elem_of_closures.
    apply Hreg in Hl. destruct Hl as [Hin _]. tauto. }
  split; [exact Heq|].
  intros h _. rewrite Heq, list_elem_of_filter. simpl. tauto.
Qed.

Lemma C8_close_removes_the_connections_listeners_witness :
  listeners (emitter (onClose 1%nat Samples.twoSubscribers)) "download-progress"
  = filter (λ l, conn l ≠ 1%nat)
      (listeners (emitter Samples.twoSubscribers) "download-progress")
  ∧ (∀ h, ("download-progress", h) ∈ registrations →
       mkListener 1%nat h
       ∉ listeners (emitter (onClose 1%nat Samples.twoSubscribers)) "download-progress").
Proof.
  apply (C8_close_removes_the_connections_listeners
           Samples.twoSubscribers 1%nat "download-progress").
  unfold Samples.twoSubscribers, Samples.oneSubscriber.
  eapply reachable_step.
  - eapply reachable_step.
    + eapply reachable_step.
      * apply reachable_initial.
      * apply step_tracker.
    + apply step_connect. reflexivity.
  - apply step_connect. vm_compute. reflexivity.
Defined.

(** C10. [removePropsWithNoData] keeps a numeric property exactly when
    its value is greater than zero, so a negative number is left out like
    zero; and it keeps no empty string, no [false], no [null] and no
    [undefined]. Every record the channel forwards has gone through it:
    a number found in a forwarded record is greater than zero. *)
Theorem C10_numeric_field_is_kept_only_when_positive
    (o : Obj) (key : string) (n : Z) :
  (In (key, JsNumber n) (removePropsWithNoData o) ↔ In (key, JsNumber n) o ∧ 0 < n)
  ∧ ¬ In (key, JsString "") (removePropsWithNoData o)
  ∧ ¬ In (key, JsBool false) (removePropsWithNoData o)
  ∧ ¬ In (key, JsNull) (removePropsWithNoData o)
  ∧ ¬ In (key, JsUndefined) (removePropsWithNoData o)
  ∧ (∀ downloads record k m,
       In record (convertDownloadsMapForFrontend downloads) →
       In (k, JsNumber m) record → 0 < m).
Proof.
  assert (Hno : ∀ v, hasData v = false → ¬ In (key, v) (removePropsWithNoData o)).
  { intros v Hv Hin. apply removePropsWithNoData_In in Hin.
    destruct Hin as [_ Hd]. congruence. }
  split; [|split; [|split; [|split; [|split]]]].
  - rewrite removePropsWithNoData_In. simpl. now rewrite Z.ltb_lt.
  - now apply Hno.
  - now apply Hno.
  - now apply Hno.
  - now apply Hno.
  - intros downloads record k m Hrec Hin.
    unfold convertDownloadsMapForFrontend in Hrec.
    apply in_map_iff in Hrec. destruct Hrec as [o' [<- _]].
    apply removePropsWithNoData_In in Hin. destruct Hin as [_ Hd].
    simpl in Hd. lia.
Qed.

Lemma C10_numeric_field_is_kept_only_when_positive_witness :
  ¬ In ("downloadSpeed", JsNumber (-1)) (removePropsWithNoData Samples.failedRecord)
  ∧ In ("downloadedBytes", JsNumber 2048) (removePropsWithNoData Samples.failedRecord).
Proof.
  split.
  - intros H.
    apply (C10_numeric_field_is_kept_only_when_positive
             Samples.failedRecord "downloadSpeed" (-1)) in H.
    lia.
  - apply (C10_numeric_field_is_kept_only_when_positive
             Samples.failedRecord "downloadedBytes" 2048).
    split; [|lia]. simpl. tauto.
Defined.

End SSEFacts.

(** ** Further properties of the batch orchestrator *)

Module DownloadsMore.
Import Downloads DownloadsFacts.

Ltac in_list :=
  cbn -[path_join Z.lt Z.le] in *;
  intuition (try discriminate; try congruence; try lia; eauto).

(** X1. A task makes at most two of the calls that end an attempt
    ([setDownloadCancelled], [setDownloadSucceeded], [setDownloadFailed]).
    A task that resolves makes exactly one. It makes none exactly when the
    post has tries left and the counting of the try or the creation of the
    folder rejects; and it makes two exactly when it records the success
    and then, the write of the downloaded flag rejecting, the failure. *)
Theorem X1_terminal_calls_of_a_task (w : World) (s : AdminSettings) (p : Post) :
  (length (List.filter isTerminal (fst (downloadPost w s p))) <= 2)%nat
  /\ (forall v, snd (downloadPost w s p) = Resolved v ->
        length (List.filter isTerminal (fst (downloadPost w s p))) = 1%nat)
  /\ (length (List.filter isTerminal (fst (downloadPost w s p))) = 0%nat
      <-> mediaDownloadTries p < 3
          /\ (db_incrementPostMediaDownloadTry w (id p) <> None
              \/ pCreateFolder w (path_join (postsMediaContainerFolder w) (id p)) <> None))
  /\ (length (List.filter isTerminal (fst (downloadPost w s p))) = 2%nat
      <-> In (SetDownloadSucceeded (id p)) (fst (downloadPost w s p))
          /\ exists e, In (SetDownloadFailed (id p) e) (fst (downloadPost w s p))).
Proof.
  task_paths w s p; repeat split; intros; try lia; try discriminate;
    try (exfalso; lia);
    repeat match goal with
           | H : exists _, _ |- _ => destruct H
           | H : _ /\ _ |- _ => destruct H
           end;
    in_list;
    eexists; repeat (first [left; reflexivity | right]).
Qed.

(** X2. A post with tries left is charged exactly one try, in the tracker
    and in the database alike, whether the transfer then succeeds, breaks
    or no rule matches the post; a post without tries left is charged
    none. *)
Theorem X2_one_try_charged_per_admitted_post
    (w : World) (s : AdminSettings) (p : Post) :
  length (List.filter (isTrackerTryIncrement (id p)) (fst (downloadPost w s p)))
  = (if tooManyDownloadTries p then 0 else 1)%nat
  /\ length (List.filter (isDbTryIncrement (id p)) (fst (downloadPost w s p)))
     = (if tooManyDownloadTries p then 0 else 1)%nat.
Proof.
  task_paths w s p; rewrite ?String.eqb_refl; split; reflexivity.
Qed.

(** X3. A task resolves only with [undefined], for a post without tries
    left, or with the post's identifier, and then it has recorded the
    success and called for the downloaded flag and has recorded no
    failure. It never hands back an error: whenever it records a failure
    it rejects, the catch block throwing on the logger's name. *)
Theorem X3_what_a_task_hands_back (w : World) (s : AdminSettings) (p : Post) :
  (forall v,
     snd (downloadPost w s p) = Resolved v ->
     (v = JsUndefined /\ 3 <= mediaDownloadTries p)
     \/ (v = JsString (id p)
         /\ mediaDownloadTries p < 3
         /\ In (SetDownloadSucceeded (id p)) (fst (downloadPost w s p))
         /\ In (DbSetMediaDownloadedTrueForPost (id p)) (fst (downloadPost w s p))
         /\ forall e, ~ In (SetDownloadFailed (id p) e) (fst (downloadPost w s p))))
  /\ (forall e,
        In (SetDownloadFailed (id p) e) (fst (downloadPost w s p)) ->
        snd (downloadPost w s p)
        = Rejected (mkError "ReferenceError"
                      "logDownloadErrorIfNotOffline is not defined")).
Proof.
  task_paths w s p; split; intros; try discriminate;
    try match goal with
        | H : Resolved _ = Resolved _ |- _ => inversion H; subst; clear H
        end;
    try (left; split; [reflexivity|assumption]);
    try (right; repeat split; [assumption|..]);
    in_list.
Qed.

(** X4. When a task calls the executor, it does so once, after it has
    created the post's media folder and called [setDownloadStarted], and
    it hands over the post itself, the settings of the run and the folder
    it has created. *)
Theorem X4_executor_gets_the_created_folder
    (w : World) (s : AdminSettings) (p : Post) (args : DownloadArgs) :
  In (DownloadDirectMediaLink args) (fst (downloadPost w s p)) ->
  args = mkDownloadArgs p s (path_join (postsMediaContainerFolder w) (id p))
  /\ isDirectMediaLink w args = true
  /\ length (List.filter isExecutorCall (fst (downloadPost w s p))) = 1%nat
  /\ exists after,
       fst (downloadPost w s p)
       = ([ IncrementPostMediaDownloadTry (id p);
            DbIncrementPostMediaDownloadTry (id p);
            PCreateFolder (postMediaFolder args);
            SetDownloadStarted (id p);
            DownloadDirectMediaLink args ] ++ after)%list.
Proof.
  task_paths w s p; intros Hin;
    repeat (destruct Hin as [Hin|Hin]; try discriminate Hin; try contradiction);
    inversion Hin; subst args; cbn -[path_join];
    (split; [reflexivity|]); (split; [assumption|]); (split; [reflexivity|]);
    eexists; reflexivity.
Qed.

Lemma X4_executor_gets_the_created_folder_witness :
  mkDownloadArgs Samples.postC Samples.settings "/posts-media/c"
  = mkDownloadArgs Samples.postC Samples.settings
      (path_join (postsMediaContainerFolder Samples.world) (id Samples.postC))
  /\ isDirectMediaLink Samples.world
       (mkDownloadArgs Samples.postC Samples.settings "/posts-media/c") = true
  /\ length (List.filter isExecutorCall
               (fst (downloadPost Samples.world Samples.settings Samples.postC))) = 1%nat
  /\ exists after,
       fst (downloadPost Samples.world Samples.settings Samples.postC)
       = ([ IncrementPostMediaDownloadTry "c";
            DbIncrementPostMediaDownloadTry "c";
            PCreateFolder "/posts-media/c";
            SetDownloadStarted "c";
            DownloadDirectMediaLink
              (mkDownloadArgs Samples.postC Samples.settings "/posts-media/c") ]
          ++ after)%list.
Proof.
  apply (X4_executor_gets_the_created_folder
           Samples.world Samples.settings Samples.postC
           (mkDownloadArgs Samples.postC Samples.settings "/posts-media/c")).
  vm_compute. tauto.
Defined.

Lemma downloadPost_about (w : World) (s : AdminSettings) (p : Post) :
  Forall (about w p) (fst (downloadPost w s p)).
Proof. task_paths w s p; repeat constructor. Qed.

(** X5. At a positive concurrency the tasks of a run are those of the
    first posts of the batch, in order, one for each post reached, and
    every task works on its own post only: each of its calls names the
    identifier of its post, the media folder of its post or the post
    itself. No task touches the record of another post. *)
Theorem X5_each_task_keeps_to_its_post
    (w : World) (s : AdminSettings) (batch : list (PostId * Post)) :
  0 < numberMediaDownloadsAtOnce s ->
  exists reached rest,
    values batch = (reached ++ rest)%list
    /\ Forall2 (fun p log => log = fst (downloadPost w s p) /\ Forall (about w p) log)
               reached (perPost (downloadPostsMedia w s batch)).
Proof.
  intros Hpos. destruct (run_prefix w s batch Hpos) as (reached & rest & Hb & Hlogs).
  exists reached, rest. split; [assumption|]. rewrite Hlogs.
  clear. induction reached as [|p ps IH]; simpl; constructor.
  - split; [reflexivity|apply downloadPost_about].
  - exact IH.
Qed.

Lemma X5_each_task_keeps_to_its_post_witness :
  exists reached rest,
    values Samples.batch = (reached ++ rest)%list
    /\ Forall2 (fun p log =>
                  log = fst (downloadPost Samples.world Samples.oneAtATime p)
                  /\ Forall (about Samples.world p) log)
               reached
               (perPost (downloadPostsMedia Samples.world Samples.oneAtATime
                           Samples.batch)).
Proof.
  apply (X5_each_task_keeps_to_its_post Samples.world Samples.oneAtATime Samples.batch).
  reflexivity.
Defined.

(** X6. A task calls [setDownloadStarted] exactly when the post has fewer
    than three tries and both the counting of the try and the creation of
    the folder have resolved; it cancels exactly when the post has three
    tries or more, then with the post's identifier and the fixed reason.
    The two never occur together. *)
Theorem X6_started_or_cancelled_by_the_try_count
    (w : World) (s : AdminSettings) (p : Post) :
  (In (SetDownloadStarted (id p)) (fst (downloadPost w s p))
   <-> mediaDownloadTries p < 3
       /\ db_incrementPostMediaDownloadTry w (id p) = None
       /\ pCreateFolder w (path_join (postsMediaContainerFolder w) (id p)) = None)
  /\ (forall i reason,
        In (SetDownloadCancelled i reason) (fst (downloadPost w s p))
        <-> 3 <= mediaDownloadTries p
            /\ i = id p
            /\ reason = "Download Skipped: Too many download tries (3)."%string).
Proof.
  task_paths w s p; repeat split; intros; unfold tooManyTriesReason in *; in_list.
Qed.

(** X7. A post with tries left that is no direct media link, the storage
    and the filesystem working: the executor is not called, and still the
    task records the success, calls for the downloaded flag and hands
    back the post's identifier. *)
Theorem X7_unmatched_post_is_recorded_as_succeeded
    (w : World) (s : AdminSettings) (p : Post) :
  mediaDownloadTries p < 3 ->
  db_incrementPostMediaDownloadTry w (id p) = None ->
  pCreateFolder w (path_join (postsMediaContainerFolder w) (id p)) = None ->
  db_setMediaDownloadedTrueForPost w (id p) = None ->
  isDirectMediaLink w
    (mkDownloadArgs p s (path_join (postsMediaContainerFolder w) (id p))) = false ->
  List.filter isExecutorCall (fst (downloadPost w s p)) = []
  /\ In (SetDownloadSucceeded (id p)) (fst (downloadPost w s p))
  /\ In (DbSetMediaDownloadedTrueForPost (id p)) (fst (downloadPost w s p))
  /\ snd (downloadPost w s p) = Resolved (JsString (id p)).
Proof.
  intros Hlt Hi Hd Hs Hno. task_paths w s p; try lia; try congruence.
  repeat split; in_list.
Qed.

Lemma X7_unmatched_post_is_recorded_as_succeeded_witness :
  List.filter isExecutorCall
    (fst (downloadPost Samples.world Samples.settings Samples.textPost)) = []
  /\ In (SetDownloadSucceeded "t")
        (fst (downloadPost Samples.world Samples.settings Samples.textPost))
  /\ In (DbSetMediaDownloadedTrueForPost "t")
        (fst (downloadPost Samples.world Samples.settings Samples.textPost))
  /\ snd (downloadPost Samples.world Samples.settings Samples.textPost)
     = Resolved (JsString "t").
Proof.
  apply (X7_unmatched_post_is_recorded_as_succeeded
           Samples.world Samples.settings Samples.textPost).
  - simpl. lia.
  - reflexivity.
  - reflexivity.
  - reflexivity.
  - vm_compute. reflexivity.
Defined.

(** X8. At a positive concurrency no batch, the empty one included, makes
    [downloadPostsMedia] resolve. The tracker is initialised with the
    posts of the batch in insertion order. When no task rejects, every
    post is visited and the promise rejects with the [TypeError] of
    reading [filter] of [undefined]; when a task rejects, the promise
    rejects with the error of a rejecting task of the batch. *)
Theorem X8_no_run_resolves
    (w : World) (s : AdminSettings) (batch : list (PostId * Post)) :
  0 < numberMediaDownloadsAtOnce s ->
  initialisation (downloadPostsMedia w s batch) = InitializeWithNewPosts (map snd batch)
  /\ (exists e, result (downloadPostsMedia w s batch) = Some (Rejected e))
  /\ ((forall p e, In p (map snd batch) -> snd (downloadPost w s p) <> Rejected e) ->
      perPost (downloadPostsMedia w s batch)
      = map (fun p => fst (downloadPost w s p)) (map snd batch)
      /\ result (downloadPostsMedia w s batch)
         = Some (Rejected (mkError "TypeError"
                             "Cannot read properties of undefined (reading 'filter')")))
  /\ ((exists p e, In p (map snd batch) /\ snd (downloadPost w s p) = Rejected e) ->
      exists p e,
        In p (map snd batch)
        /\ snd (downloadPost w s p) = Rejected e
        /\ result (downloadPostsMedia w s batch) = Some (Rejected e)).
Proof.
  intros Hpos. split; [now rewrite downloadPostsMedia_unfold|]. split; [|split].
  - rewrite downloadPostsMedia_unfold. cbn [result].
    destruct (endOfSweep_cases (map (downloadPost w s) (values batch))
                (numberMediaDownloadsAtOnce s) (completionOrder w) Hpos)
      as [(_ & Hres & _)|(e & t & Hres & _ & _)]; rewrite Hres; simpl; eauto.
  - intros Hquiet. now apply run_quiet.
  - intros Hnoisy. now apply run_noisy.
Qed.

Lemma X8_no_run_resolves_witness :
  initialisation (downloadPostsMedia Samples.world Samples.settings Samples.batch)
  = InitializeWithNewPosts (map snd Samples.batch)
  /\ (exists e, result (downloadPostsMedia Samples.world Samples.settings Samples.batch)
                = Some (Rejected e))
  /\ ((forall p e, In p (map snd Samples.batch) ->
                   snd (downloadPost Samples.world Samples.settings p) <> Rejected e) ->
      perPost (downloadPostsMedia Samples.world Samples.settings Samples.batch)
      = map (fun p => fst (downloadPost Samples.world Samples.settings p)) (map snd Samples.batch)
      /\ result (downloadPostsMedia Samples.world Samples.settings Samples.batch)
         = Some (Rejected (mkError "TypeError"
                             "Cannot read properties of undefined (reading 'filter')")))
  /\ ((exists p e, In p (map snd Samples.batch) /\
                   snd (downloadPost Samples.world Samples.settings p) = Rejected e) ->
      exists p e,
        In p (map snd Samples.batch)
        /\ snd (downloadPost Samples.world Samples.settings p) = Rejected e
        /\ result (downloadPostsMedia Samples.world Samples.settings Samples.batch)
           = Some (Rejected e)).
Proof.
  apply (X8_no_run_resolves Samples.world Samples.settings Samples.batch).
  reflexivity.
Defined.

(** X9. [removeFailedDownloads] resolves exactly on arrays, and then with
    the array unchanged: it drops neither an [Error] nor [undefined]. On
    every other value it rejects with a [TypeError]. *)
Theorem X9_removeFailedDownloads_removes_nothing (v : JsVal) :
  (forall l, v = JsArray l -> removeFailedDownloads v = Resolved (JsArray l))
  /\ ((forall l, v <> JsArray l) ->
      exists e, removeFailedDownloads v = Rejected e /\ name e = "TypeError"%string).
Proof.
  split.
  - intros l ->. unfold removeFailedDownloads. do 2 f_equal.
    induction l as [|x l IH]; simpl; [reflexivity|]. now rewrite IH.
  - intros Hno. destruct v; try (eexists; split; reflexivity).
    now destruct (Hno items).
Qed.

Lemma X9_removeFailedDownloads_removes_nothing_witness :
  removeFailedDownloads (JsArray [JsUndefined; JsError Samples.connectionReset])
  = Resolved (JsArray [JsUndefined; JsError Samples.connectionReset])
  /\ exists e, removeFailedDownloads JsUndefined = Rejected e /\ name e = "TypeError"%string.
Proof.
  split.
  - apply (X9_removeFailedDownloads_removes_nothing
             (JsArray [JsUndefined; JsError Samples.connectionReset])).
    reflexivity.
  - apply (X9_removeFailedDownloads_removes_nothing JsUndefined).
    intros l H. discriminate H.
Defined.

End DownloadsMore.

(** ** Further properties of the live progress channel *)

Module SSEMore.
Import SSE SSEFacts.

Implicit Types (em : gmap string (list Listener)) (st : State).
Implicit Types (l : Listener) (ls : list Listener) (ev : string) (c : ConnId).

(** *** Trimming a record *)

(** X10. [stringifyAnyErrors] changes nothing of what is forwarded: after
    the trimming by [removePropsWithNoData] a record is the same with and
    without it, so the snapshot is the table's records picked and trimmed,
    the value of [downloadError] passed on as the tracker holds it. *)
Theorem X10_stringifyAnyErrors_has_no_effect (downloads : DownloadsMap) :
  (∀ o, removePropsWithNoData (stringifyAnyErrors o) = removePropsWithNoData o)
  ∧ convertDownloadsMapForFrontend downloads
    = map (λ tracked, removePropsWithNoData (R_pick trimmedDownloadProps tracked))
          (Downloads.values downloads).
Proof.
  split; [apply removePropsWithNoData_stringifyAnyErrors|].
  unfold convertDownloadsMapForFrontend. rewrite !map_map.
  apply map_ext. intros tracked. apply removePropsWithNoData_stringifyAnyErrors.
Qed.

(** X11. A record of the snapshot comes from a record of the tracker's
    table and holds exactly the properties of that record that are among
    the fourteen forwarded names and carry data, each with the value the
    tracker holds: no other property (the try count, say) is forwarded and
    no value is altered. *)
Theorem X11_forwarded_record_is_the_tracked_one_trimmed
    (downloads : DownloadsMap) (record : Obj) :
  In record (convertDownloadsMapForFrontend downloads) →
  ∃ tracked,
    In tracked (Downloads.values downloads)
    ∧ ∀ key v,
        In (key, v) record
        ↔ In key trimmedDownloadProps
          ∧ hasProp key tracked = true
          ∧ v = getProp key tracked
          ∧ hasData v = true.
Proof.
  unfold convertDownloadsMapForFrontend. intros Hrec.
  apply in_map_iff in Hrec. destruct Hrec as [o1 [<- Hrec]].
  apply in_map_iff in Hrec. destruct Hrec as [o2 [<- Hrec]].
  apply in_map_iff in Hrec. destruct Hrec as [tracked [<- Hrec]].
  exists tracked. split; [assumption|]. intros key v.
  rewrite removePropsWithNoData_stringifyAnyErrors, removePropsWithNoData_In, R_pick_In.
  tauto.
Qed.

Lemma X11_forwarded_record_is_the_tracked_one_trimmed_witness :
  ∃ tracked,
    In tracked (Downloads.values Samples.table)
    ∧ ∀ key v,
        In (key, v)
           [ ("id", JsString "b");
             ("url", JsString "https://i.redd.it/b.jpg");
             ("downloadFailed", JsBool true);
             ("downloadError", JsError Samples.connectionReset);
             ("downloadStarted", JsBool true);
             ("downloadedBytes", JsNumber 2048) ]
        ↔ In key trimmedDownloadProps
          ∧ hasProp key tracked = true
          ∧ v = getProp key tracked
          ∧ hasData v = true.
Proof.
  apply (X11_forwarded_record_is_the_tracked_one_trimmed Samples.table).
  vm_compute. left. reflexivity.
Defined.

(** X12. [JSON.stringify] leaves out a property whose value is
    [undefined]; a record trimmed by [removePropsWithNoData] has none, so
    the JSON object written for it has one member for each of its
    properties, under the same names and in the same order. *)
Theorem X12_trimmed_record_loses_no_member_in_json (o : Obj) :
  ∃ members,
    JSON_stringify (JsObject (removePropsWithNoData o)) = Some (JObject members)
    ∧ map fst members = map fst (removePropsWithNoData o).
Proof.
  assert (Hall : Forall (λ kv, hasData kv.2 = true) (removePropsWithNoData o)).
  { apply List.Forall_forall. intros [k v] Hin.
    apply removePropsWithNoData_In in Hin. tauto. }
  simpl. eexists. split; [reflexivity|].
  induction Hall as [|[k v] props Hv Hall IH]; simpl; [reflexivity|].
  destruct (hasData_stringify v Hv) as [j Hj]. rewrite Hj. simpl.
  now rewrite IH.
Qed.

(** *** Handlers and their events *)

Lemma registrations_functional ev (h1 h2 : Handler) :
  (ev, h1) ∈ registrations → (ev, h2) ∈ registrations → h1 = h2.
Proof.
  rewrite !list_elem_of_In. simpl. intros H1 H2.
  repeat (destruct H1 as [H1|H1]; [inversion H1; subst; clear H1|]);
    try contradiction;
    repeat (destruct H2 as [H2|H2]; [try (inversion H2; reflexivity)|]);
    contradiction.
Qed.

Lemma invoke_registered (n : Notification) (h : Handler) :
  (eventName n, h) ∈ registrations →
  ∃ f, invoke h n = Some f
       ∧ (event f = eventName n ↔ eventName n ≠ "download-progress").
Proof.
  rewrite list_elem_of_In.
  destruct n; simpl; intros H;
    repeat (destruct H as [H|H]; [try (inversion H; fail)|]);
    try contradiction;
    inversion H; subst; eexists; (split; [reflexivity|]); simpl;
    split; intros; congruence.
Qed.

(** X13. The closure registered for an event accepts the arguments the
    tracker emits with that event and writes a frame; the frame bears the
    name of the event for eight of the nine events, and a different name
    for [download-progress]. *)
Theorem X13_frames_are_named_after_their_event_but_for_progress
    (n : Notification) (h : Handler) :
  (eventName n, h) ∈ registrations →
  ∃ f, invoke h n = Some f
       ∧ (event f = eventName n ↔ eventName n ≠ "download-progress").
Proof. apply invoke_registered. Qed.

Lemma X13_frames_are_named_after_their_event_but_for_progress_witness :
  ∃ f, invoke aDownloadCancelled (DownloadCancelled "a" "no tries left") = Some f
       ∧ (event f = "download-cancelled"
          ↔ "download-cancelled" ≠ "download-progress").
Proof.
  apply (X13_frames_are_named_after_their_event_but_for_progress
           (DownloadCancelled "a" "no tries left") aDownloadCancelled).
  apply list_elem_of_In. simpl. tauto.
Defined.

(** *** What an emit writes *)

Lemma replies_deliver_all n c ls st r :
  replies st !! c = Some r →
  replies (fold_left (deliver n) ls st) !! c
  = Some (mkReply (headers r) (frames r ++ deliveries n c ls)%list).
Proof.
  revert st r. induction ls as [|l ls IH]; intros st r Hr.
  - simpl. rewrite Hr. unfold deliveries. simpl. rewrite app_nil_r. now destruct r.
  - simpl. unfold deliveries. rewrite filter_cons.
    destruct (decide (conn l = c)) as [Hc|Hc].
    + simpl. unfold deliver. destruct (invoke (handler l) n) as [f|].
      * erewrite IH.
        2:{ rewrite replies_write, decide_True by assumption.
            rewrite Hc, Hr. reflexivity. }
        simpl. unfold deliveries. now rewrite <- app_assoc.
      * now apply IH.
    + apply IH. unfold deliver. destruct (invoke (handler l) n) as [f|]; [|assumption].
      now rewrite replies_write, decide_False by assumption.
Qed.

Lemma replies_deliver_none n c ls st :
  (∀ l, l ∈ ls → conn l ≠ c) →
  replies (fold_left (deliver n) ls st) !! c = replies st !! c.
Proof.
  revert st. induction ls as [|l ls IH]; intros st Hno; [reflexivity|].
  simpl. rewrite IH by (intros x Hx; apply Hno; now right).
  unfold deliver. destruct (invoke (handler l) n) as [f|]; [|reflexivity].
  rewrite replies_write, decide_False; [reflexivity|]. apply Hno. now left.
Qed.

Lemma posts_deliver_all n ls st : posts (fold_left (deliver n) ls st) = posts st.
Proof.
  revert st. induction ls as [|l ls IH]; intros st; [reflexivity|].
  simpl. rewrite IH. unfold deliver. now destruct (invoke (handler l) n).
Qed.

Lemma filter_none {A} (P : A → Prop) `{!∀ x, Decision (P x)} (xs : list A) :
  (∀ x, x ∈ xs → ¬ P x) → filter P xs = [].
Proof.
  induction xs as [|x xs IH]; intros Hall; [reflexivity|].
  rewrite filter_cons_False by (apply Hall; left).
  apply IH. intros y Hy. apply Hall. now right.
Qed.

Lemma filter_unique {A} (P : A → Prop) `{!∀ x, Decision (P x)} (xs : list A) (x : A) :
  NoDup xs → x ∈ xs → P x → (∀ y, y ∈ xs → P y → y = x) → filter P xs = [x].
Proof.
  induction 1 as [|a xs Ha Hnd IH]; intros Hx HP Huniq.
  - now apply elem_of_nil in Hx.
  - apply elem_of_cons in Hx. destruct Hx as [->|Hx].
    + rewrite filter_cons_True by assumption. f_equal.
      apply filter_none. intros y Hy HPy.
      assert (y = a) by (apply Huniq; [now right|assumption]). congruence.
    + assert (¬ P a).
      { intros HPa. assert (a = x) by (apply Huniq; [now left|assumption]). congruence. }
      rewrite filter_cons_False by assumption.
      apply IH; [assumption..|]. intros y Hy. apply Huniq. now right.
Qed.

(** X14. In every reachable state, a subscriber that has its closure
    listed for the event of a notification gets exactly one frame for one
    emit of it: the reply keeps its headers and its earlier frames, and
    the frame of the closure comes last. *)
Theorem X14_one_frame_per_subscriber_per_emit st (n : Notification) c (h : Handler) :
  reachable st →
  mkListener c h ∈ listeners (emitter st) (eventName n) →
  ∃ f r,
    invoke h n = Some f
    ∧ replies st !! c = Some r
    ∧ replies (emit n st) !! c = Some (mkReply (headers r) (frames r ++ [f])%list).
Proof.
  intros Hreach Hin. apply Inv_reachable in Hreach. destruct Hreach as [Hnd Hreg].
  destruct (Hreg _ _ Hin) as [Hregd [r Hr]]. simpl in Hregd, Hr.
  destruct (invoke_registered n h Hregd) as [f [Hf _]].
  exists f, r. split; [assumption|]. split; [assumption|].
  unfold emit. rewrite (replies_deliver_all n c _ st r Hr).
  unfold deliveries.
  rewrite (filter_unique (λ l, conn l = c) _ (mkListener c h)); try done.
  - simpl. now rewrite Hf.
  - intros [c' h'] Hy Hc. simpl in Hc. subst c'. f_equal.
    apply Hreg in Hy. destruct Hy as [Hy _]. simpl in Hy.
    eapply registrations_functional; eassumption.
Qed.

Lemma X14_one_frame_per_subscriber_per_emit_witness :
  ∃ f r,
    invoke aDownloadStarted (DownloadStarted "b") = Some f
    ∧ replies Samples.oneSubscriber !! 1%nat = Some r
    ∧ replies (emit (DownloadStarted "b") Samples.oneSubscriber) !! 1%nat
      = Some (mkReply (headers r) (frames r ++ [f])%list).
Proof.
  apply (X14_one_frame_per_subscriber_per_emit
           Samples.oneSubscriber (DownloadStarted "b") 1%nat aDownloadStarted).
  - unfold Samples.oneSubscriber.
    eapply reachable_step.
    + eapply reachable_step.
      * apply reachable_initial.
      * apply step_tracker.
    + apply step_connect. reflexivity.
  - apply list_elem_of_In. vm_compute. left. reflexivity.
Defined.

(** X15. An emit writes nothing to a connection that has no closure
    listed for the event, and it changes neither the emitter nor the
    tracker's table. *)
Theorem X15_emit_leaves_other_connections_alone st (n : Notification) c :
  (∀ l, l ∈ listeners (emitter st) (eventName n) → conn l ≠ c) →
  replies (emit n st) !! c = replies st !! c
  ∧ emitter (emit n st) = emitter st
  ∧ posts (emit n st) = posts st.
Proof.
  intros Hno. unfold emit. split; [|split].
  - now apply replies_deliver_none.
  - apply emit_fold.
  - apply posts_deliver_all.
Qed.

Lemma X15_emit_leaves_other_connections_alone_witness :
  replies (emit (DownloadStarted "b") Samples.oneSubscriber) !! 2%nat
  = replies Samples.oneSubscriber !! 2%nat
  ∧ emitter (emit (DownloadStarted "b") Samples.oneSubscriber)
    = emitter Samples.oneSubscriber
  ∧ posts (emit (DownloadStarted "b") Samples.oneSubscriber)
    = posts Samples.oneSubscriber.
Proof.
  apply (X15_emit_leaves_other_connections_alone
           Samples.oneSubscriber (DownloadStarted "b") 2%nat).
  intros l Hl. apply list_elem_of_In in Hl. vm_compute in Hl.
  destruct Hl as [<-|[]]. simpl. lia.
Defined.

(** *** Connections over time *)

Lemma listeners_onClose st c ev :
  Inv st →
  listeners (emitter (onClose c st)) ev
  = filter (λ l, conn l ≠ c) (listeners (emitter st) ev).
Proof.
  intros [Hnd Hreg]. unfold onClose, withEmitter. cbn [emitter].
  rewrite listeners_removeAll by apply Hnd.
  apply filter_ext_elem. intros l Hl. rewrite elem_of_closures.
  apply Hreg in Hl. destruct Hl as [Hin _]. tauto.
Qed.

Lemma reachable_steps st st' : reachable st → rtc step st st' → reachable st'.
Proof. intros H Hs. induction Hs; eauto using reachable_step. Qed.

(** A connection that has a reply and no closure with the emitter. *)
Lemma detached_step st st' c (r : Reply) :
  Inv st →
  replies st !! c = Some r →
  (∀ ev l, l ∈ listeners (emitter st) ev → conn l ≠ c) →
  step st st' →
  replies st' !! c = Some r
  ∧ (∀ ev l, l ∈ listeners (emitter st') ev → conn l ≠ c).
Proof.
  intros HI Hr Hdet Hstep. destruct Hstep as [st c' Hnew|st c'|st table|st n].
  - assert (c' ≠ c) by congruence.
    rewrite SSEHandler_new by assumption. cbn [replies emitter]. split.
    + now rewrite lookup_insert_ne.
    + intros ev l. rewrite listeners_registerAll, elem_of_app, elem_of_closures.
      intros [Hl|[Hl _]]; [eauto|congruence].
  - split; [exact Hr|]. intros ev l. rewrite listeners_onClose by assumption.
    rewrite list_elem_of_filter. intros [_ Hl]. eauto.
  - split; assumption.
  - unfold emit. split.
    + rewrite replies_deliver_none; [assumption|]. apply Hdet.
    + destruct (emit_fold n (listeners (emitter st) (eventName n)) st) as [He _].
      rewrite He. exact Hdet.
Qed.

(** X16. Once the close handler of a connection has run, nothing is ever
    written to that connection again and no closure of it is listed again,
    whatever the server does afterwards. *)
Theorem X16_closed_connection_is_never_written_again st st' c :
  reachable st →
  is_Some (replies st !! c) →
  rtc step (onClose c st) st' →
  replies st' !! c = replies st !! c
  ∧ (∀ ev l, l ∈ listeners (emitter st') ev → conn l ≠ c).
Proof.
  intros Hreach [r Hr] Hsteps.
  assert (Hclosed : reachable (onClose c st)).
  { eapply reachable_step; [eassumption|apply step_close]. }
  assert (Hdet : ∀ ev l, l ∈ listeners (emitter (onClose c st)) ev → conn l ≠ c).
  { intros ev l. rewrite listeners_onClose by now apply Inv_reachable.
    rewrite list_elem_of_filter. tauto. }
  assert (Hr' : replies (onClose c st) !! c = Some r) by exact Hr.
  rewrite Hr. clear Hr Hreach.
  induction Hsteps as [st0|st0 st1 st2 Hstep Hsteps IH]; [auto|].
  destruct (detached_step st0 st1 c r) as [Hr1 Hdet1]; try assumption.
  { now apply Inv_reachable. }
  apply IH; try assumption.
  eapply reachable_step; eassumption.
Qed.

Lemma X16_closed_connection_is_never_written_again_witness :
  replies (emit (DownloadStarted "b") (onClose 1%nat Samples.twoSubscribers)) !! 1%nat
  = replies Samples.twoSubscribers !! 1%nat
  ∧ (∀ ev l,
       l ∈ listeners
             (emitter (emit (DownloadStarted "b") (onClose 1%nat Samples.twoSubscribers)))
             ev →
       conn l ≠ 1%nat).
Proof.
  apply (X16_closed_connection_is_never_written_again
           Samples.twoSubscribers
           (emit (DownloadStarted "b") (onClose 1%nat Samples.twoSubscribers)) 1%nat).
  - unfold Samples.twoSubscribers, Samples.oneSubscriber.
    eapply reachable_step.
    + eapply reachable_step.
      * eapply reachable_step.
        -- apply reachable_initial.
        -- apply step_tracker.
      * apply step_connect. reflexivity.
    + apply step_connect. vm_compute. reflexivity.
  - vm_compute. eexists. reflexivity.
  - apply rtc_once. apply step_emit.
Defined.

Lemma append_only_step st st' c (r : Reply) :
  step st st' →
  replies st !! c = Some r →
  ∃ r' extra,
    replies st' !! c = Some r'
    ∧ headers r' = headers r
    ∧ frames r' = (frames r ++ extra)%list.
Proof.
  intros Hstep Hr. destruct Hstep as [st c' Hnew|st c'|st table|st n].
  - exists r, []. rewrite SSEHandler_new by assumption. cbn [replies].
    rewrite lookup_insert_ne by congruence. now rewrite app_nil_r.
  - exists r, []. now rewrite app_nil_r.
  - exists r, []. now rewrite app_nil_r.
  - eexists _, _. unfold emit. rewrite (replies_deliver_all n c _ st r Hr).
    split; [reflexivity|]. split; reflexivity.
Qed.

(** X17. A reply is only ever appended to: after any number of steps of
    the server the reply of a connection has the headers it had and its
    earlier frames as a prefix, in their order. *)
Theorem X17_replies_are_append_only st st' c (r : Reply) :
  rtc step st st' →
  replies st !! c = Some r →
  ∃ r' extra,
    replies st' !! c = Some r'
    ∧ headers r' = headers r
    ∧ frames r' = (frames r ++ extra)%list.
Proof.
  intros Hsteps. revert r.
  induction Hsteps as [st0|st0 st1 st2 Hstep Hsteps IH]; intros r Hr.
  - exists r, []. now rewrite app_nil_r.
  - destruct (append_only_step st0 st1 c r Hstep Hr) as (r1 & e1 & Hr1 & Hh1 & Hf1).
    destruct (IH r1 Hr1) as (r2 & e2 & Hr2 & Hh2 & Hf2).
    exists r2, (e1 ++ e2)%list. split; [assumption|]. split; [congruence|].
    now rewrite Hf2, Hf1, <- app_assoc.
Qed.

Lemma X17_replies_are_append_only_witness :
  ∃ r' extra,
    replies (emit (DownloadStarted "b") Samples.oneSubscriber) !! 1%nat = Some r'
    ∧ headers r' = sseHeaders
    ∧ frames r' = ([pageLoad Samples.table] ++ extra)%list.
Proof.
  apply (X17_replies_are_append_only
           Samples.oneSubscriber (emit (DownloadStarted "b") Samples.oneSubscriber)
           1%nat (mkReply sseHeaders [pageLoad Samples.table])).
  - apply rtc_once. apply step_emit.
  - reflexivity.
Defined.

(** What every reply of a reachable state looks like. *)
Lemma reply_shape st c (r : Reply) :
  reachable st →
  replies st !! c = Some r →
  headers r = sseHeaders ∧ ∃ table rest, frames r = pageLoad table :: rest.
Proof.
  intros Hreach. revert c r.
  induction Hreach as [|st st' Hreach IH Hstep]; intros c r Hr.
  - simpl in Hr. now rewrite lookup_empty in Hr.
  - pose proof (Inv_reachable st Hreach) as [Hnd Hreg].
    destruct Hstep as [st c' Hnew|st c'|st table|st n].
    + rewrite SSEHandler_new in Hr by assumption. cbn [replies] in Hr.
      rewrite lookup_insert in Hr. case_decide.
      * inversion Hr. simpl. split; [reflexivity|]. now exists (posts st), [].
      * now apply (IH c).
    + now apply (IH c).
    + now apply (IH c).
    + unfold emit in Hr. destruct (replies st !! c) as [r0|] eqn:Hr0.
      * rewrite (replies_deliver_all n c _ st r0 Hr0) in Hr. inversion Hr. simpl.
        destruct (IH c r0 Hr0) as [Hh (table & rest & Hf)].
        split; [assumption|]. exists table, (rest ++ deliveries n c
          (listeners (emitter st) (eventName n)))%list. now rewrite Hf.
      * rewrite replies_deliver_none in Hr; [congruence|].
        intros l Hl Hc. apply Hreg in Hl. destruct Hl as [_ [r1 Hr1]]. congruence.
Qed.

(** X18. In every reachable state each reply has exactly the four headers
    of an event stream (content type, no caching, no compression, keep
    alive), set once, and its frames begin with a [page-load] frame that
    holds the snapshot of some table of the tracker. *)
Theorem X18_every_reply_has_the_headers_and_starts_with_page_load st c (r : Reply) :
  reachable st →
  replies st !! c = Some r →
  headers r
  = [ ("Content-Type", "text/event-stream"); ("Cache-Control", "no-cache");
      ("x-no-compression", "true"); ("Connection", "keep-alive") ]
  ∧ ∃ table rest,
      frames r
      = createSSEEvent "page-load" (objects (convertDownloadsMapForFrontend table))
        :: rest.
Proof. apply reply_shape. Qed.

Lemma X18_every_reply_has_the_headers_and_starts_with_page_load_witness :
  headers (mkReply sseHeaders [pageLoad Samples.table])
  = [ ("Content-Type", "text/event-stream"); ("Cache-Control", "no-cache");
      ("x-no-compression", "true"); ("Connection", "keep-alive") ]
  ∧ ∃ table rest,
      frames (mkReply sseHeaders [pageLoad Samples.table])
      = createSSEEvent "page-load" (objects (convertDownloadsMapForFrontend table))
        :: rest.
Proof.
  apply (X18_every_reply_has_the_headers_and_starts_with_page_load
           Samples.oneSubscriber 1%nat (mkReply sseHeaders [pageLoad Samples.table])).
  - unfold Samples.oneSubscriber.
    eapply reachable_step.
    + eapply reachable_step.
      * apply reachable_initial.
      * apply step_tracker.
    + apply step_connect. reflexivity.
  - reflexivity.
Defined.

(** X19. Attaching a subscriber and closing its connection again leaves
    the emitter with the listeners it had, under every event name and in
    the same order. *)
Theorem X19_attach_then_close_restores_the_listeners st c ev :
  reachable st →
  replies st !! c = None →
  listeners (emitter (onClose c (SSEHandler c st))) ev = listeners (emitter st) ev.
Proof.
  intros Hreach Hnew. apply Inv_reachable in Hreach.
  rewrite listeners_onClose by now apply Inv_connect.
  rewrite SSEHandler_new by assumption. cbn [emitter].
  rewrite listeners_registerAll, filter_app.
  rewrite filter_all, filter_none.
  - apply app_nil_r.
  - intros l Hl. apply elem_of_closures in Hl. tauto.
  - intros l Hl. destruct Hreach as [_ Hreg]. apply Hreg in Hl.
    destruct Hl as [_ [r Hr]]. congruence.
Qed.

Lemma X19_attach_then_close_restores_the_listeners_witness :
  listeners (emitter (onClose 2%nat Samples.twoSubscribers)) "download-failed"
  = listeners (emitter Samples.oneSubscriber) "download-failed".
Proof.
  apply (X19_attach_then_close_restores_the_listeners
           Samples.oneSubscriber 2%nat "download-failed").
  - unfold Samples.oneSubscriber.
    eapply reachable_step.
    + eapply reachable_step.
      * apply reachable_initial.
      * apply step_tracker.
    + apply step_connect. reflexivity.
  - vm_compute. reflexivity.
Defined.

(** In a reachable state the closures of a connection are all nine, as
    registered, or none. *)
Lemma all_or_none st c :
  reachable st →
  (∀ ev, filter (λ l, conn l = c) (listeners (emitter st) ev)
         = closures c registrations ev)
  ∨ (∀ ev l, l ∈ listeners (emitter st) ev → conn l ≠ c).
Proof.
  induction 1 as [|st st' Hreach IH Hstep].
  - right. intros ev l. unfold listeners. simpl. rewrite lookup_empty. simpl.
    intros Hl. now apply elem_of_nil in Hl.
  - pose proof (Inv_reachable st Hreach) as HI.
    destruct Hstep as [st c' Hnew|st c'|st table|st n].
    + rewrite SSEHandler_new by assumption. cbn [emitter].
      assert (Hold : ∀ ev l, l ∈ listeners (emitter st) ev → conn l ≠ c').
      { intros ev l Hl Hc. destruct HI as [_ Hreg]. apply Hreg in Hl.
        destruct Hl as [_ [r Hr]]. congruence. }
      destruct (decide (c' = c)) as [->|Hne].
      * left. intros ev. rewrite listeners_registerAll, filter_app.
        rewrite filter_none by (intros l Hl; now apply Hold in Hl).
        simpl. apply filter_all. intros l Hl. apply elem_of_closures in Hl. tauto.
      * assert (Hnew' : ∀ ev, filter (λ l, conn l = c) (closures c' registrations ev) = []).
        { intros ev. apply filter_none. intros l Hl Hc.
          apply elem_of_closures in Hl. destruct Hl as [Hl _]. congruence. }
        destruct IH as [IH|IH].
        -- left. intros ev. rewrite listeners_registerAll, filter_app, Hnew', IH.
           apply app_nil_r.
        -- right. intros ev l. rewrite listeners_registerAll, elem_of_app, elem_of_closures.
           intros [Hl|[Hl _]]; [eauto|congruence].
    + destruct (decide (c' = c)) as [->|Hne].
      * right. intros ev l. rewrite listeners_onClose by assumption.
        rewrite list_elem_of_filter. tauto.
      * destruct IH as [IH|IH].
        -- left. intros ev. rewrite listeners_onClose by assumption.
           rewrite list_filter_filter, <- IH. apply list_filter_iff.
           intros l. split; [tauto|]. intros Hc. split; [assumption|congruence].
        -- right. intros ev l. rewrite listeners_onClose by assumption.
           rewrite list_elem_of_filter. intros [_ Hl]. eauto.
    + exact IH.
    + unfold emit.
      destruct (emit_fold n (listeners (emitter st) (eventName n)) st) as [He _].
      rewrite He. exact IH.
Qed.

(** X20. In every reachable state a connection is subscribed to all nine
    events, each with the closure registered for it, or to none: no
    subscriber gets some kinds of update and misses others. *)
Theorem X20_subscribed_to_all_nine_events_or_to_none st c :
  reachable st →
  (∀ ev h, (ev, h) ∈ registrations → mkListener c h ∈ listeners (emitter st) ev)
  ∨ (∀ ev l, l ∈ listeners (emitter st) ev → conn l ≠ c).
Proof.
  intros Hreach. destruct (all_or_none st c Hreach) as [Hall|Hnone]; [left|now right].
  intros ev h Hin.
  assert (Hcl : mkListener c h ∈ closures c registrations ev).
  { apply elem_of_closures. auto. }
  rewrite <- Hall in Hcl. apply list_elem_of_filter in Hcl. tauto.
Qed.

Lemma X20_subscribed_to_all_nine_events_or_to_none_witness :
  (∀ ev h, (ev, h) ∈ registrations →
           mkListener 1%nat h ∈ listeners (emitter Samples.oneSubscriber) ev)
  ∨ (∀ ev l, l ∈ listeners (emitter Samples.oneSubscriber) ev → conn l ≠ 1%nat).
Proof.
  apply (X20_subscribed_to_all_nine_events_or_to_none Samples.oneSubscriber 1%nat).
  unfold Samples.oneSubscriber.
  eapply reachable_step.
  - eapply reachable_step.
    + apply reachable_initial.
    + apply step_tracker.
  - apply step_connect. reflexivity.
Defined.

End SSEMore.
